(** * Rayleigh-Taylor instability example: particle creation and equations

    A shallow embedding of [examples/TransportVelocity/rayleigh_taylor.py].

    The script computes with Python floats.  Nothing below depends on how
    floating-point arithmetic rounds: the arithmetic is an interface
    ([FloatOps]) and the script is written against it, so every theorem
    stated for an arbitrary instance holds for IEEE doubles as well as for
    exact rationals.  The instance [QcOps] (exact rationals) is used to run
    the script on its concrete constants.

    The particle-array service ([get_particle_array], [extract_particles],
    [remove_particles], [add_property], attribute access) lives outside this
    file of the repository; it is modelled from section 4.1 of the design
    text and kept apart from the script in [exec]. *)

From Stdlib Require Import QArith Qcanon Qround Sorted.
From stdpp Require Import base option list gmap strings fin_maps.

Close Scope Q_scope.
Close Scope Qc_scope.

(** ** Float arithmetic as an interface *)

Class FloatOps (F : Type) : Type := {
  lit : Q → F;               (* a float literal, or an int converted to float *)
  fadd : F → F → F;
  fsub : F → F → F;
  fmul : F → F → F;
  fdiv : F → F → F;
  fneg : F → F;              (* unary minus *)
  fabs : F → F;              (* abs *)
  fsqrt : F → F;             (* np.sqrt *)
  fsin : F → F;              (* np.sin *)
  fpow : F → Z → F;          (* float ** int *)
  fpi : F;                   (* np.pi *)
  flt : F → F → bool;        (* a < b *)
  fceil : F → Z              (* int(ceil(a)), the length computed by np.arange *)
}.

Definition fgt `{FloatOps F} (a b : F) : bool := flt b a.

(** ** Errors raised by the particle-array service and by array indexing *)

Inductive Error : Type :=
| DuplicatePropertyError
| IndexOutOfRangeError
| MissingPropertyError
| ValueError
| InvalidReference.

(** ** Particle sets *)

Record ParticleSet (F : Type) : Type := mkParticleSet {
  name : string;
  num_particles : nat;
  properties : gmap string (list F)
}.
Arguments mkParticleSet {F} _ _ _.
Arguments name {F} _.
Arguments num_particles {F} _.
Arguments properties {F} _.

(** Every property array has as many entries as the set has particles. *)
Definition consistent {F} (ps : ParticleSet F) : Prop :=
  map_Forall (λ _ arr, length arr = num_particles ps) (properties ps).

(** Python variables hold references; the sets themselves live in a heap. *)
Abbreviation ref := nat (only parsing).
Abbreviation Heap F := (list (ParticleSet F)) (only parsing).

Definition heap_consistent {F} (h : Heap F) : Prop := Forall consistent h.

(** [rows_at idx arr]: the entries of [arr] at the offsets [idx], in the
    order of [idx]. *)
Definition rows_at {A} (idx : list nat) (arr : list A) : list A :=
  omap (λ i, arr !! i) idx.

(** [mark n idx]: a mask of length [n], true at the offsets in [idx]. *)
Definition mark (n : nat) (idx : list nat) : list bool :=
  foldr (λ i m, <[i:=true]> m) (replicate n false) idx.

(** [compact mask arr]: the entries of [arr] whose mask bit is false, in
    their original order. *)
Fixpoint compact {A} (mask : list bool) (arr : list A) : list A :=
  match mask, arr with
  | b :: mask', a :: arr' =>
      if b then compact mask' arr' else a :: compact mask' arr'
  | _, _ => arr
  end.

Definition in_range (n : nat) (idx : list nat) : bool :=
  forallb (λ i, i <? n) idx.

(** ** The calls the script makes on the particle-array service *)

Inductive Call (F : Type) : Type → Type :=
| get_particle_array (nm : string) (arrays : list (string * list F)) : Call F ref
| extract_particles (r : ref) (indices : list nat) : Call F ref
| set_name (r : ref) (nm : string) : Call F unit
| remove_particles (r : ref) (indices : list nat) : Call F unit
| get_number_of_particles (r : ref) : Call F nat
| get_property (r : ref) (p : string) : Call F (list F)
| set_item (r : ref) (p : string) (i : nat) (v : F) : Call F unit
| set_slice (r : ref) (p : string) (vals : list F) : Call F unit
| fill_slice (r : ref) (p : string) (v : F) : Call F unit
| add_property (r : ref) (p : string) : Call F unit.
Arguments get_particle_array {F} _ _.
Arguments extract_particles {F} _ _.
Arguments set_name {F} _ _.
Arguments remove_particles {F} _ _.
Arguments get_number_of_particles {F} _.
Arguments get_property {F} _ _.
Arguments set_item {F} _ _ _ _.
Arguments set_slice {F} _ _ _.
Arguments fill_slice {F} _ _ _.
Arguments add_property {F} _ _.

(** ** Programs: a free monad over the calls, with exceptions *)

Inductive Prog (F : Type) (A : Type) : Type :=
| Ret (a : A)
| Raise (e : Error)
| Do {R : Type} (c : Call F R) (k : R → Prog F A).
Arguments Ret {F A} _.
Arguments Raise {F A} _.
Arguments Do {F A R} _ _.

Fixpoint bind {F A B} (m : Prog F A) (f : A → Prog F B) : Prog F B :=
  match m with
  | Ret a => f a
  | Raise e => Raise e
  | Do c k => Do c (λ r, bind (k r) f)
  end.

#[global] Instance Prog_ret {F} : MRet (Prog F) := λ A a, Ret a.
#[global] Instance Prog_bind {F} : MBind (Prog F) := λ A B f m, bind m f.

Definition call {F R} (c : Call F R) : Prog F R := Do c Ret.

(** [for x in l: s = body(x, s)] *)
Fixpoint for_fold {F A S} (l : list A) (s : S) (body : A → S → Prog F S)
  : Prog F S :=
  match l with
  | [] => mret s
  | a :: l' => s' ← body a s; for_fold l' s' body
  end.

(** [for x in l: body(x)] *)
Fixpoint for_each {F A} (l : list A) (body : A → Prog F unit) : Prog F unit :=
  match l with
  | [] => mret ()
  | a :: l' => body a;; for_each l' body
  end.

(** [arr[i]] on a numpy array: IndexError outside the array. *)
Definition index {F} (arr : list F) (i : nat) : Prog F F :=
  match arr !! i with
  | Some v => mret v
  | None => Raise IndexOutOfRangeError
  end.

(** ** Results *)

#[global] Instance result_ret : MRet (sum Error) := λ A a, inr a.
#[global] Instance result_bind : MBind (sum Error) :=
  λ A B f m, match m with inl e => inl e | inr a => f a end.

(** ** The particle-array service *)

Section Service.
Context {F : Type} `{!FloatOps F}.

(** The value [get_particle_array] gives a default property that is not
    passed by keyword.  It is declared outside this file; the service is
    parametric in it. *)
Variable base_default : string → F.

(** Modelled from the spec: the properties every particle array is created
    with are not listed in this file; section 3 of the design text names
    position, velocity, density, mass and smoothing length among the
    fields of a particle, and the script reads [x], [y], [rho], [m], [h]
    without adding them. *)
Definition default_props : list string :=
  ["x"; "y"; "z"; "u"; "v"; "w"; "rho"; "m"; "h"].

Definition base_properties (n : nat) : gmap string (list F) :=
  list_to_map ((λ p, (p, replicate n (base_default p))) <$> default_props).

(** Modelled from the spec: [get_particle_array(name=..., **arrays)] is
    declared in pysph.base.utils.  The arrays passed by keyword become
    properties, the other default properties are filled with their default
    value, and all arrays must have one length, the particle count. *)
Definition new_particle_array (nm : string) (arrays : list (string * list F))
  : Error + ParticleSet F :=
  let n := match arrays with [] => 0 | (_, a) :: _ => length a end in
  if forallb (λ pa, length pa.2 =? n) arrays
  then inr (mkParticleSet nm n
              (foldr (λ pa m, <[pa.1 := pa.2]> m) (base_properties n) arrays))
  else inl ValueError.

Definition deref (h : Heap F) (r : ref) : Error + ParticleSet F :=
  match h !! r with
  | Some ps => inr ps
  | None => inl InvalidReference
  end.

Definition prop_of (ps : ParticleSet F) (p : string) : Error + list F :=
  match properties ps !! p with
  | Some arr => inr arr
  | None => inl MissingPropertyError
  end.

Definition with_property (ps : ParticleSet F) (p : string) (arr : list F)
  : ParticleSet F :=
  mkParticleSet (name ps) (num_particles ps) (<[p := arr]> (properties ps)).

(** Modelled from the spec: section 4.1, [extract(indices)] returns a new
    set holding copies of the rows at [indices] and fails with
    IndexOutOfRangeError on an offset outside the set. *)
Definition extract (ps : ParticleSet F) (idx : list nat)
  : Error + ParticleSet F :=
  if in_range (num_particles ps) idx
  then inr (mkParticleSet (name ps) (length idx)
              (rows_at idx <$> properties ps))
  else inl IndexOutOfRangeError.

(** Modelled from the spec: section 4.1, [remove(indices)] deletes the rows
    at [indices], renumbers the remaining rows contiguously and keeps
    their order; it fails with IndexOutOfRangeError on an offset outside
    the set. *)
Definition remove (ps : ParticleSet F) (idx : list nat)
  : Error + ParticleSet F :=
  if in_range (num_particles ps) idx
  then let mask := mark (num_particles ps) idx in
       inr (mkParticleSet (name ps)
              (length (filter (λ b : bool, b = false) mask))
              (compact mask <$> properties ps))
  else inl IndexOutOfRangeError.

(** Modelled from the spec: section 4.1, [addProperty(name, default=0)]
    adds a new array, back-filled with zero for the existing particles,
    and fails with DuplicatePropertyError if the name exists. *)
Definition add (ps : ParticleSet F) (p : string) : Error + ParticleSet F :=
  match properties ps !! p with
  | Some _ => inl DuplicatePropertyError
  | None => inr (with_property ps p (replicate (num_particles ps) (lit 0)))
  end.

(** [ps.p[i] = v]: the property is a numpy array, and numpy raises
    IndexError outside it. *)
Definition assign_item (ps : ParticleSet F) (p : string) (i : nat) (v : F)
  : Error + ParticleSet F :=
  arr ← prop_of ps p;
  if decide (i < length arr)
  then inr (with_property ps p (<[i := v]> arr))
  else inl IndexOutOfRangeError.

(** [ps.p[:] = vals]: numpy refuses an array of another length. *)
Definition assign_slice (ps : ParticleSet F) (p : string) (vals : list F)
  : Error + ParticleSet F :=
  arr ← prop_of ps p;
  if decide (length vals = length arr)
  then inr (with_property ps p vals)
  else inl ValueError.

(** [ps.p[:] = v] with a scalar [v]. *)
Definition assign_fill (ps : ParticleSet F) (p : string) (v : F)
  : Error + ParticleSet F :=
  arr ← prop_of ps p;
  inr (with_property ps p (replicate (length arr) v)).

(** Modelled from the spec: the particle-array service of section 6
    (property add, get and set, extract, remove), one call at a time on the
    heap.  Allocation appends a set; the in-place operations replace the
    set at the reference; reading a property that the set does not have
    fails with MissingPropertyError. *)
Definition exec {R} (c : Call F R) (h : Heap F) : Error + (R * Heap F) :=
  match c in Call _ R return Error + (R * Heap F) with
  | get_particle_array nm arrays =>
      ps ← new_particle_array nm arrays; inr (length h, h ++ [ps])
  | extract_particles r idx =>
      ps ← deref h r; ps' ← extract ps idx; inr (length h, h ++ [ps'])
  | set_name r nm =>
      ps ← deref h r;
      inr ((), <[r := mkParticleSet nm (num_particles ps) (properties ps)]> h)
  | remove_particles r idx =>
      ps ← deref h r; ps' ← remove ps idx; inr ((), <[r := ps']> h)
  | get_number_of_particles r =>
      ps ← deref h r; inr (num_particles ps, h)
  | get_property r p =>
      ps ← deref h r; arr ← prop_of ps p; inr (arr, h)
  | set_item r p i v =>
      ps ← deref h r; ps' ← assign_item ps p i v; inr ((), <[r := ps']> h)
  | set_slice r p vals =>
      ps ← deref h r; ps' ← assign_slice ps p vals; inr ((), <[r := ps']> h)
  | fill_slice r p v =>
      ps ← deref h r; ps' ← assign_fill ps p v; inr ((), <[r := ps']> h)
  | add_property r p =>
      ps ← deref h r; ps' ← add ps p; inr ((), <[r := ps']> h)
  end.

(** Running a program from a heap. *)
Fixpoint run {A} (m : Prog F A) (h : Heap F) : Error + (A * Heap F) :=
  match m with
  | Ret a => inr (a, h)
  | Raise e => inl e
  | Do c k =>
      match exec c h with
      | inl e => inl e
      | inr (r, h') => run (k r) h'
      end
  end.

(** A call together with its result type. *)
Definition pack {R} (c : Call F R) : {R : Type & Call F R} := existT R c.

(** The calls a run performs, each with the heap before and after it. *)
Record Step : Type := mkStep {
  step_call : {R : Type & Call F R};
  step_pre : Heap F;
  step_post : Heap F
}.

Fixpoint trace {A} (m : Prog F A) (h : Heap F) : list Step :=
  match m with
  | Do c k =>
      match exec c h with
      | inl _ => []
      | inr (r, h') => mkStep (pack c) h h' :: trace (k r) h'
      end
  | _ => []
  end.
End Service.

(** What a call writes to: the reference and property of an assignment. *)
Definition assigns {F R} (c : Call F R) : option (ref * string) :=
  match c with
  | set_item r p _ _ => Some (r, p)
  | set_slice r p _ => Some (r, p)
  | fill_slice r p _ => Some (r, p)
  | _ => None
  end.

(** ** numpy: arange, meshgrid and ravel *)

Section Numpy.
Context {F : Type} `{!FloatOps F}.

Definition of_int (n : Z) : F := lit (inject_Z n).

(** [np.arange(start, stop, step)] on floats: the length is
    [ceil((stop - start)/step)]; the first two entries are [start] and
    [start + step], and entry [i] is [start + i*delta] where [delta] is the
    difference of the first two. *)
Definition arange (start stop step : F) : list F :=
  let n := Z.to_nat (fceil (fdiv (fsub stop start) step)) in
  let next := fadd start step in
  let delta := fsub next start in
  (λ i : nat, match i with
              | 0 => start
              | 1 => next
              | _ => fadd start (fmul (of_int (Z.of_nat i)) delta)
              end) <$> seq 0 n.

(** [x, y = np.meshgrid(_x, _y); x = x.ravel(); y = y.ravel()]: row [j] of
    the mesh has [y = _y[j]] and runs through [_x]. *)
Definition meshgrid_ravel (_x _y : list F) : list F * list F :=
  (mjoin (replicate (length _y) _x), _y ≫= λ v, replicate (length _x) v).

End Numpy.

(** ** The script *)

Section Script.
Context {F : Type} `{!FloatOps F}.

(** Domain and reference values *)
Definition gy : F := lit (-1.0).
Definition Lx : F := lit 1.0.
Definition Ly : F := lit 2.0.
Definition Re : Z := 420.
Definition Umax : F := fsqrt (fmul (fmul (of_int 2) (fabs gy)) Ly).
Definition nu : F := fdiv (fmul Umax Ly) (of_int Re).

(** Density for the two phases *)
Definition rho1 : F := lit 1.8.
Definition rho2 : F := lit 1.0.

(** Speed of sound and reference pressure *)
Definition c0 : F := fmul (of_int 10) Umax.
Definition p0 : F := fpow c0 2.

(** Numerical setup *)
Definition nx : Z := 50.
Definition dx : F := fdiv Lx (of_int nx).
Definition ghost_extent : F := fmul (of_int 5) dx.
Definition hdx : F := lit 1.2.

(** [a and b]: [b] is evaluated only when [a] is true. *)
Definition and_then (a b : Prog F bool) : Prog F bool :=
  va ← a; if va : bool then b else mret false.

(** Lines 52-54: the body of the first loop. *)
Definition sort_out_body (x y : list F) (i : nat) (indices : list nat)
  : Prog F (list nat) :=
  cx ← and_then (xi ← index x i; mret (fgt xi (lit 0.0)))
                (xi ← index x i; mret (flt xi Lx));
  if cx : bool then
    cy ← and_then (yi ← index y i; mret (fgt yi (lit 0.0)))
                  (yi ← index y i; mret (flt yi Ly));
    if cy : bool then mret (indices ++ [i]) else mret indices
  else mret indices.

(** Lines 50-54: the offsets of the grid points strictly inside the box. *)
Definition sort_out (x y : list F) : Prog F (list nat) :=
  for_fold (seq 0 (length x)) [] (sort_out_body x y).

(** Line 68: the test [y > 1 - 0.15*np.sin(2*np.pi*x)]. *)
Definition above_interface (x y : F) : bool :=
  fgt y (fsub (of_int 1) (fmul (lit 0.15) (fsin (fmul (fmul (of_int 2) fpi) x)))).

(** Lines 68-71: the body of the second loop. *)
Definition sort_out_phases_body (fluid : ref) (i : nat) : Prog F unit :=
  fy ← call (get_property fluid "y");
  yi ← index fy i;
  fx ← call (get_property fluid "x");
  xi ← index fx i;
  if above_interface xi yi
  then call (set_item fluid "rho" i rho1)
  else call (set_item fluid "rho" i rho2).

(** Lines 66-71: the two fluid phases. *)
Definition sort_out_phases (fluid : ref) : Prog F unit :=
  n ← call (get_number_of_particles fluid);
  for_each (seq 0 n) (sort_out_phases_body fluid).

(** Lines 45-47: the padded grid of candidate points. *)
Definition _x : list F :=
  arange (fsub (fneg ghost_extent) (fdiv dx (of_int 2)))
         (fadd (fadd Lx ghost_extent) (fdiv dx (of_int 2))) dx.
Definition _y : list F :=
  arange (fsub (fneg ghost_extent) (fdiv dx (of_int 2)))
         (fadd (fadd Ly ghost_extent) (fdiv dx (of_int 2))) dx.
Definition mesh : list F * list F := meshgrid_ravel _x _y.

(** Lines 40-71: the two sets, as the pair [(fluid, solid)].  The [print]
    of line 73 writes to the terminal only and is left out. *)
Definition create_sets (empty : bool) : Prog F (ref * ref) :=
  if empty then
    fluid ← call (get_particle_array "fluid" []);
    solid ← call (get_particle_array "solid" []);
    mret (fluid, solid)
  else
    let x := mesh.1 in
    let y := mesh.2 in
    indices ← sort_out x y;
    let to_extract := indices in
    solid ← call (get_particle_array "solid" [("x", x); ("y", y)]);
    fluid ← call (extract_particles solid to_extract);
    call (set_name fluid "fluid");;
    call (remove_particles solid to_extract);;
    sort_out_phases fluid;;
    mret (fluid, solid).

(** Lines 77-108: the properties added to the two sets. *)
Definition add_properties (fluid solid : ref) : Prog F unit :=
  call (add_property fluid "V");;
  call (add_property solid "V");;
  call (add_property fluid "uhat");;
  call (add_property fluid "vhat");;
  call (add_property solid "uhat");;
  call (add_property solid "vhat");;
  call (add_property fluid "auhat");;
  call (add_property fluid "avhat");;
  call (add_property fluid "au");;
  call (add_property fluid "av");;
  call (add_property fluid "aw");;
  call (add_property fluid "rho0");;
  rho ← call (get_property fluid "rho");
  call (set_slice fluid "rho0" rho);;
  call (add_property fluid "p0");;
  rho ← call (get_property fluid "rho");
  call (set_slice fluid "p0" (fdiv (fpow c0 2) <$> rho));;
  call (add_property solid "wij");;
  call (add_property solid "u0");;
  call (add_property solid "v0").

(** Lines 110-123: mass, volume and smoothing length. *)
Definition setup_properties (fluid solid : ref) : Prog F unit :=
  let volume := fmul dx dx in
  rho ← call (get_property fluid "rho");
  call (set_slice fluid "m" (fmul volume <$> rho));;
  call (fill_slice fluid "V" (fdiv (lit 1.0) volume));;
  call (fill_slice solid "V" (fdiv (lit 1.0) volume));;
  call (fill_slice fluid "h" (fmul hdx dx));;
  call (fill_slice solid "h" (fmul hdx dx)).

Definition create_particles (empty : bool) : Prog F (ref * ref) :=
  '(fluid, solid) ← create_sets empty;
  add_properties fluid solid;;
  (if negb empty then setup_properties fluid solid else mret ());;
  mret (fluid, solid).

(** ** The equations (lines 142-165) *)

Inductive Equation : Type :=
| TransportVelocitySummationDensity
    (dest : string) (sources : option (list string)) (c0 : F)
| TransportVelocitySolidWall
    (dest : string) (sources : option (list string)) (p0 gy : F)
| BodyForce (dest : string) (sources : option (list string)) (fy : F)
| TransportVelocityMomentumEquation
    (dest : string) (sources : option (list string)) (nu pb : F).

Record Group : Type := mkGroup { group_equations : list Equation }.

Definition equations : list Group :=
  [ mkGroup [ TransportVelocitySummationDensity
                "fluid" (Some ["fluid"; "solid"]) c0 ];
    mkGroup [ TransportVelocitySolidWall "solid" (Some ["fluid"]) p0 gy ];
    mkGroup [ BodyForce "fluid" None gy;
              TransportVelocityMomentumEquation
                "fluid" (Some ["fluid"; "solid"]) nu p0 ] ].

Definition dest_of (e : Equation) : string :=
  match e with
  | TransportVelocitySummationDensity d _ _ => d
  | TransportVelocitySolidWall d _ _ _ => d
  | BodyForce d _ _ => d
  | TransportVelocityMomentumEquation d _ _ _ => d
  end.

Definition sources_of (e : Equation) : option (list string) :=
  match e with
  | TransportVelocitySummationDensity _ s _ => s
  | TransportVelocitySolidWall _ s _ _ => s
  | BodyForce _ s _ => s
  | TransportVelocityMomentumEquation _ s _ _ => s
  end.

End Script.

(** ** An instance: exact rational arithmetic

    Sums, products and quotients are exact.  The square root and the sine
    are not rational; they are computed in binary fixed point with 48
    fractional bits, enough to run the script on its constants.

    Exact arithmetic and IEEE doubles need not agree on the size of the
    grid: [(1.11 - (-0.11))/0.02] is exactly 61, so that [_x] has 61 entries
    here, while in doubles the quotient rounds above 61 and [np.arange]
    yields 62.  The theorems stated for every instance do not depend on
    it; the numbers computed on this instance are those of exact
    arithmetic. *)

Module Exact.

Definition frac_bits : Z := 48.
Definition scale : Z := 281474976710656.       (* 2^48 *)
Definition pi_fix : Z := 884279719003555.      (* pi * 2^48, rounded down *)

Definition to_fix (a : Qc) : Z := Qfloor (this a * inject_Z scale)%Q.
Definition of_fix (z : Z) : Qc := Q2Qc (Qmake z (Z.to_pos scale)).

(** Sine of [t/scale], times [scale]: the argument is reduced to
    [[-pi/2, pi/2]] and the Taylor polynomial of degree 17 is evaluated by
    Horner's rule. *)
Definition sin_fix (t : Z) : Z :=
  let r := ((t + pi_fix) mod (2 * pi_fix) - pi_fix)%Z in
  let r := (if r >? pi_fix / 2 then pi_fix - r
            else if r <? - (pi_fix / 2) then - pi_fix - r else r)%Z in
  let r2 := Z.shiftr (r * r) frac_bits in
  let acc := foldr (λ d acc, (scale - Z.shiftr (r2 * acc) frac_bits / d)%Z)
               scale [6; 20; 42; 72; 110; 156; 210; 272]%Z in
  Z.shiftr (r * acc) frac_bits.

Definition sqrt_fix (a : Qc) : Qc :=
  let n := Qnum (this a) in
  let d := Zpos (Qden (this a)) in
  Q2Qc (Qmake (Z.sqrt (n * d * scale * scale)) (Z.to_pos (d * scale))).

Definition pow (a : Qc) (n : Z) : Qc :=
  match n with
  | Zneg p => Qcinv (Qcpower a (Pos.to_nat p))
  | _ => Qcpower a (Z.to_nat n)
  end.

Definition ltb (a b : Qc) : bool :=
  (Qnum (this a) * Zpos (Qden (this b)) <? Qnum (this b) * Zpos (Qden (this a)))%Z.

#[global] Instance QcOps : FloatOps Qc := {|
  lit := Q2Qc;
  fadd := Qcplus;
  fsub := Qcminus;
  fmul := Qcmult;
  fdiv := Qcdiv;
  fneg := Qcopp;
  fabs := λ a, if ltb a (Q2Qc 0) then Qcopp a else a;
  fsqrt := sqrt_fix;
  fsin := λ a, of_fix (sin_fix (to_fix a));
  fpow := pow;
  fpi := of_fix pi_fix;
  flt := ltb;
  fceil := λ a, Qceiling (this a)
|}.

(** Default values for the base properties: all zero, or all one. *)
Definition default_zero : string → Qc := λ _, Q2Qc 0.
Definition default_one : string → Qc := λ _, Q2Qc 1.

End Exact.

(** ** Reading the outcome of a run *)

Section Outcome.
Context {F : Type} `{!FloatOps F}.
Variable base_default : string → F.

(** The two sets [create_particles] returns, read from the final heap. *)
Definition final_sets (empty : bool) : option (ParticleSet F * ParticleSet F) :=
  match run base_default (create_particles empty) [] with
  | inr ((fluid, solid), h) =>
      match h !! fluid, h !! solid with
      | Some f, Some s => Some (f, s)
      | _, _ => None
      end
  | inl _ => None
  end.

(** The calls [create_particles] performs, in order. *)
Definition steps (empty : bool) : list (Step (F:=F)) :=
  trace base_default (create_particles empty) [].

End Outcome.

(** ** Vocabulary of the statements *)

Section Vocabulary.
Context {F : Type} `{!FloatOps F}.

(** A grid point lies strictly inside the box [(0,Lx) x (0,Ly)]. *)
Definition strictly_inside (p : F * F) : bool :=
  fgt p.1 (lit 0.0) && flt p.1 Lx && (fgt p.2 (lit 0.0) && flt p.2 Ly).

(** The density of the phase a fluid point belongs to. *)
Definition phase (p : F * F) : F :=
  if above_interface p.1 p.2 then rho1 else rho2.

(** The points of a set, as pairs of its [x] and [y] columns. *)
Definition points (ps : ParticleSet F) : list (F * F) :=
  match properties ps !! "x", properties ps !! "y" with
  | Some xs, Some ys => zip xs ys
  | _, _ => []
  end.

(** The candidate points of the padded grid. *)
Definition grid_points : list (F * F) := zip (mesh (F:=F)).1 (mesh (F:=F)).2.

(** [sum(arr)], from the left and starting at zero. *)
Definition fsum (arr : list F) : F := foldl fadd (lit 0) arr.

(** A set holds property [p] with the array [arr]. *)
Definition holds (ps : ParticleSet F) (p : string) (arr : list F) : Prop :=
  properties ps !! p = Some arr.

End Vocabulary.

(** Property tables: a map given by its list of bindings, earlier bindings
    shadowing later ones. *)
Fixpoint assoc {A} (k : string) (l : list (string * A)) : option A :=
  match l with
  | [] => None
  | (k', v) :: l' => if String.eqb k' k then Some v else assoc k l'
  end.

Definition table {F} (nm : string) (n : nat) (tbl : list (string * list F))
  : ParticleSet F :=
  mkParticleSet nm n (list_to_map tbl).

(** The entries of [arr] whose mask bit is true: the dual of [compact]. *)
Fixpoint pick {A} (mask : list bool) (arr : list A) : list A :=
  match mask, arr with
  | b :: mask', a :: arr' =>
      if b then a :: pick mask' arr' else pick mask' arr'
  | _, _ => []
  end.

(** The offsets a mask selects, counted from [j]. *)
Fixpoint selected (j : nat) (mask : list bool) : list nat :=
  match mask with
  | [] => []
  | b :: mask' => if b then j :: selected (S j) mask' else selected (S j) mask'
  end.

(** The offsets of the grid points strictly inside the box. *)
Definition inside_offsets `{FloatOps F} (x y : list F) : list nat :=
  selected 0 (strictly_inside <$> zip x y).

(** ** The sets in closed form *)

Section ClosedForms.
Context {F : Type} `{!FloatOps F}.
Variable base_default : string → F.

(** Which grid points are strictly inside the box. *)
Definition grid_mask : list bool := strictly_inside <$> grid_points (F:=F).

Definition n_fluid : nat := length (selected 0 grid_mask).
Definition n_solid : nat :=
  length (filter (λ b : bool, b = false) grid_mask).

(** The table of the base set of line 59. *)
Definition base_table : list (string * list F) :=
  [("x", (mesh (F:=F)).1); ("y", (mesh (F:=F)).2)]
  ++ ((λ p, (p, replicate (length (mesh (F:=F)).1) (base_default p)))
        <$> default_props).

(** The rows that go to the fluid and those that stay in the solid. *)
Definition fluid_rows : list (string * list F) :=
  prod_map id (pick grid_mask) <$> base_table.
Definition solid_rows : list (string * list F) :=
  prod_map id (compact grid_mask) <$> base_table.

(** The density the second loop leaves in the fluid. *)
Definition fluid_rho : list F :=
  phase <$> zip (pick grid_mask (mesh (F:=F)).1) (pick grid_mask (mesh (F:=F)).2).

Definition zeros (n : nat) : list F := replicate n (lit 0).

(** The bindings lines 77-108 push on the two tables, latest first. *)
Definition fluid_added (n : nat) (rho : list F) : list (string * list F) :=
  [("p0", fdiv (fpow c0 2) <$> rho); ("p0", zeros n);
   ("rho0", rho); ("rho0", zeros n);
   ("aw", zeros n); ("av", zeros n); ("au", zeros n);
   ("avhat", zeros n); ("auhat", zeros n);
   ("vhat", zeros n); ("uhat", zeros n); ("V", zeros n)].

Definition solid_added (n : nat) : list (string * list F) :=
  [("v0", zeros n); ("u0", zeros n); ("wij", zeros n);
   ("vhat", zeros n); ("uhat", zeros n); ("V", zeros n)].

(** The bindings lines 110-123 push on the two tables, latest first. *)
Definition fluid_setup (n : nat) (rho : list F) : list (string * list F) :=
  [("h", replicate n (fmul hdx dx));
   ("V", replicate n (fdiv (lit 1.0) (fmul dx dx)));
   ("m", fmul (fmul dx dx) <$> rho)].

Definition solid_setup (n : nat) : list (string * list F) :=
  [("h", replicate n (fmul hdx dx));
   ("V", replicate n (fdiv (lit 1.0) (fmul dx dx)))].

(** The base set: what line 59 creates, before anything is extracted. *)
Definition base_set : ParticleSet F :=
  table "solid" (length (mesh (F:=F)).1) base_table.

(** What [extract_particles] returns on line 62, before it is renamed. *)
Definition extracted : ParticleSet F := table "solid" n_fluid fluid_rows.

(** The two sets after lines 59-63. *)
Definition split_fluid : ParticleSet F := table "fluid" n_fluid fluid_rows.
Definition split_solid : ParticleSet F := table "solid" n_solid solid_rows.

(** The fluid after the second loop, and the two sets after lines 77-108. *)
Definition seeded_fluid : ParticleSet F :=
  table "fluid" n_fluid (("rho", fluid_rho) :: fluid_rows).
Definition added_fluid : ParticleSet F :=
  table "fluid" n_fluid
    (fluid_added n_fluid fluid_rho ++ ("rho", fluid_rho) :: fluid_rows).
Definition added_solid : ParticleSet F :=
  table "solid" n_solid (solid_added n_solid ++ solid_rows).

(** The two sets [create_particles(empty=False)] returns. *)
Definition final_fluid : ParticleSet F :=
  table "fluid" n_fluid
    (fluid_setup n_fluid fluid_rho ++ fluid_added n_fluid fluid_rho
     ++ ("rho", fluid_rho) :: fluid_rows).
Definition final_solid : ParticleSet F :=
  table "solid" n_solid (solid_setup n_solid ++ solid_added n_solid ++ solid_rows).

(** The two sets [create_particles(empty=True)] returns. *)
Definition empty_rows : list (string * list F) :=
  (λ p, (p, replicate 0 (base_default p))) <$> default_props.
Definition empty_fluid : ParticleSet F :=
  table "fluid" 0 (fluid_added 0 [] ++ empty_rows).
Definition empty_solid : ParticleSet F :=
  table "solid" 0 (solid_added 0 ++ empty_rows).

End ClosedForms.

(** The assignments among the steps of a run: which property of which set
    each one writes. *)
Definition assignments {F} (l : list (Step (F:=F))) : list (nat * string) :=
  omap (λ st, assigns (projT2 (step_call st))) l.

(** The properties a run adds, and to which set. *)
Definition adds {F R} (c : Call F R) : option (nat * string) :=
  match c with
  | add_property r p => Some (r, p)
  | _ => None
  end.

Definition additions {F} (l : list (Step (F:=F))) : list (nat * string) :=
  omap (λ st, adds (projT2 (step_call st))) l.

(** A set of three particles and its heap, to run single calls on. *)
Module Sample.

Definition three : ParticleSet Qc :=
  table "solid" 3
    [("x", Q2Qc <$> [0.1; 0.5; 0.9]%Q); ("m", Q2Qc <$> [1; 1; 1]%Q)].

Definition two_of_three : ParticleSet Qc :=
  table "solid" 2
    (prod_map id (rows_at [2; 0])
       <$> [("x", Q2Qc <$> [0.1; 0.5; 0.9]%Q); ("m", Q2Qc <$> [1; 1; 1]%Q)]).

Definition one_of_three : ParticleSet Qc :=
  table "solid" 1
    (prod_map id (compact [true; false; true])
       <$> [("x", Q2Qc <$> [0.1; 0.5; 0.9]%Q); ("m", Q2Qc <$> [1; 1; 1]%Q)]).

End Sample.

(** ** The first loop on arrays of any length *)

(** The outer test of line 52. *)
Definition x_in_range `{FloatOps F} (xi : F) : bool :=
  fgt xi (lit 0.0) && flt xi Lx.

(** Some [x] beyond the end of [y] passes the outer test, so that line 53
    reads [y] outside the array. *)
Definition reads_beyond `{FloatOps F} (x y : list F) : bool :=
  existsb x_in_range (drop (length y) x).

(** A fluid of four particles, two on each side of the interface, whose
    density is not yet set. *)
Module Probe.

Definition four : ParticleSet Qc :=
  table "fluid" 4
    [("x", Q2Qc <$> [0.25; 0.25; 0.75; 0.75]%Q);
     ("y", Q2Qc <$> [0.5; 1.5; 0.5; 1.5]%Q);
     ("rho", Q2Qc <$> [0; 0; 0; 0]%Q)].

End Probe.

(** * Properties *)

(** ** Running programs *)

Section RunFacts.
Context {F : Type} `{!FloatOps F}.
Variable base_default : string → F.

Lemma run_bind {A B} (m : Prog F A) (f : A → Prog F B) (h : Heap F) :
  run base_default (m ≫= f) h =
  match run base_default m h with
  | inl e => inl e
  | inr (a, h') => run base_default (f a) h'
  end.
Proof.
  revert h. induction m as [a | e | R c k IH]; intros h; try reflexivity.
  change (run base_default (Do c (λ r, k r ≫= f)) h = 
          match run base_default (Do c k) h with
          | inl e => inl e | inr (a, h') => run base_default (f a) h' end).
  simpl. destruct (exec base_default c h) as [e | [r h']]; [reflexivity | apply IH].
Qed.

Lemma trace_bind {A B} (m : Prog F A) (f : A → Prog F B) (h : Heap F) :
  trace base_default (m ≫= f) h =
  trace base_default m h ++
  match run base_default m h with
  | inl e => []
  | inr (a, h') => trace base_default (f a) h'
  end.
Proof.
  revert h. induction m as [a | e | R c k IH]; intros h; try reflexivity.
  change (trace base_default (Do c (λ r, k r ≫= f)) h = 
          trace base_default (Do c k) h ++
          match run base_default (Do c k) h with
          | inl e => [] | inr (a, h') => trace base_default (f a) h' end).
  simpl. destruct (exec base_default c h) as [e | [r h']]; [reflexivity |].
  simpl. f_equal. apply IH.
Qed.

Lemma run_call {R} (c : Call F R) (h : Heap F) :
  run base_default (call c) h = exec base_default c h.
Proof.
  unfold call. simpl. by destruct (exec base_default c h) as [e | [r h']].
Qed.

Lemma trace_call {R} (c : Call F R) (h : Heap F) :
  trace base_default (call c) h =
  match exec base_default c h with
  | inl _ => []
  | inr (_, h') => [mkStep (pack c) h h']
  end.
Proof.
  unfold call. simpl. by destruct (exec base_default c h) as [e | [r h']].
Qed.

End RunFacts.

(** ** Rows, masks and offsets *)

Section Rows.
Context {A : Type}.
Implicit Types (arr : list A) (mask : list bool) (idx : list nat).

Lemma length_mark n idx : length (mark n idx) = n.
Proof.
  induction idx as [| i idx IH]; simpl.
  - apply length_replicate.
  - by rewrite length_insert.
Qed.

Lemma mark_lookup n idx i :
  i < n → mark n idx !! i = Some (bool_decide (i ∈ idx)).
Proof.
  intros Hi. induction idx as [| j idx IH].
  - unfold mark. simpl foldr. rewrite lookup_replicate_2 by done.
    by rewrite bool_decide_eq_false_2 by apply not_elem_of_nil.
  - change (mark n (j :: idx)) with (<[j := true]> (mark n idx)).
    destruct (decide (j = i)) as [-> | Hne].
    + rewrite list_lookup_insert_eq by (by rewrite length_mark).
      rewrite bool_decide_eq_true_2; [done | apply list_elem_of_here].
    + rewrite list_lookup_insert_ne by done. rewrite IH. f_equal.
      apply bool_decide_ext. rewrite elem_of_cons. intuition congruence.
Qed.

Lemma in_range_spec n idx : in_range n idx = true ↔ ∀ i, i ∈ idx → i < n.
Proof.
  unfold in_range. rewrite forallb_forall. split.
  - intros Hall i Hi. apply Nat.ltb_lt, Hall. by apply list_elem_of_In.
  - intros Hall i Hi. apply Nat.ltb_lt, Hall. by apply list_elem_of_In.
Qed.

Lemma length_rows_at idx arr :
  in_range (length arr) idx = true → length (rows_at idx arr) = length idx.
Proof.
  rewrite in_range_spec. unfold rows_at.
  induction idx as [| i idx IH]; intros Hall; [done |]. simpl.
  destruct (lookup_lt_is_Some_2 arr i) as [a Ha]; [apply Hall; by left |].
  rewrite Ha. simpl. f_equal. apply IH. intros j Hj. apply Hall. by right.
Qed.

Lemma length_compact mask arr :
  length mask = length arr →
  length (compact mask arr) = length (filter (λ b : bool, b = false) mask).
Proof.
  revert arr. induction mask as [| b mask IH]; intros [| a arr] Hlen;
    try done. simpl in *. destruct b.
  - rewrite filter_cons_False by done. apply IH. lia.
  - rewrite filter_cons_True by done. simpl. f_equal. apply IH. lia.
Qed.

Lemma rows_at_cons i idx arr :
  rows_at (i :: idx) arr
  = match arr !! i with
    | Some a => a :: rows_at idx arr
    | None => rows_at idx arr
    end.
Proof. reflexivity. Qed.

Lemma rows_at_selected mask arr pre :
  length mask = length arr →
  rows_at (selected (length pre) mask) (pre ++ arr) = pick mask arr.
Proof.
  revert arr pre. induction mask as [| b mask IH]; intros [| a arr] pre Hlen;
    try done. simpl in Hlen.
  assert (Hnext : rows_at (selected (S (length pre)) mask) (pre ++ a :: arr)
                  = pick mask arr).
  { specialize (IH arr (pre ++ [a])).
    rewrite length_app, <- app_assoc in IH. simpl in IH.
    rewrite Nat.add_1_r in IH. apply IH. lia. }
  simpl. destruct b; [| done].
  rewrite rows_at_cons, list_lookup_middle by done. by rewrite Hnext.
Qed.

Lemma mark_selected mask j :
  mark (j + length mask) (selected j mask) = replicate j false ++ mask.
Proof.
  revert j. induction mask as [| b mask IH]; intros j; simpl.
  - by rewrite Nat.add_0_r, app_nil_r.
  - assert (Hrest : mark (j + S (length mask)) (selected (S j) mask)
                    = replicate j false ++ false :: mask).
    { specialize (IH (S j)).
      replace (j + S (length mask)) with (S j + length mask) by lia.
      rewrite IH. by rewrite replicate_S_end, <- app_assoc. }
    destruct b; [| done]. simpl. rewrite Hrest.
    rewrite insert_app_r_alt by (by rewrite length_replicate).
    by rewrite length_replicate, Nat.sub_diag.
Qed.

Lemma selected_lt mask j i : i ∈ selected j mask → j ≤ i < j + length mask.
Proof.
  revert j. induction mask as [| b mask IH]; intros j; simpl.
  - by intros ?%not_elem_of_nil.
  - destruct b.
    + rewrite elem_of_cons. intros [-> | Hi]; [lia |].
      apply IH in Hi. lia.
    + intros Hi. apply IH in Hi. lia.
Qed.

Lemma selected_NoDup mask j : NoDup (selected j mask).
Proof.
  revert j. induction mask as [| b mask IH]; intros j; simpl.
  - constructor.
  - destruct b; [| apply IH]. constructor; [| apply IH].
    intros Hj%selected_lt. lia.
Qed.

Lemma in_range_selected mask :
  in_range (length mask) (selected 0 mask) = true.
Proof. apply in_range_spec. intros i Hi%selected_lt. lia. Qed.

Lemma length_selected mask arr j :
  length mask = length arr → length (selected j mask) = length (pick mask arr).
Proof.
  revert arr j. induction mask as [| b mask IH]; intros [| a arr] j Hlen;
    try done. simpl in *. destruct b; simpl; [f_equal |]; apply IH; lia.
Qed.

Lemma compact_replicate mask n (a : A) :
  length mask = n →
  compact mask (replicate n a)
  = replicate (length (compact mask (replicate n a))) a.
Proof.
  revert n. induction mask as [| b mask IH]; intros [| n] Hlen; try done.
  simpl in *. destruct b; simpl; [| f_equal]; apply IH; lia.
Qed.

(** Flipping one kept row to removed lowers the count of kept rows by one. *)
Lemma kept_insert mask i :
  mask !! i = Some false →
  S (length (filter (λ b : bool, b = false) (<[i := true]> mask)))
  = length (filter (λ b : bool, b = false) mask).
Proof.
  revert i. induction mask as [| b mask IH]; intros [| i] Hi; try done;
    simpl in *.
  - injection Hi as ->.
    by rewrite filter_cons_False, filter_cons_True by done.
  - destruct b.
    + rewrite !filter_cons_False by done. by apply IH.
    + rewrite !filter_cons_True by done. simpl. f_equal. by apply IH.
Qed.

Lemma kept_mark n idx :
  NoDup idx → (∀ i, i ∈ idx → i < n) →
  length idx + length (filter (λ b : bool, b = false) (mark n idx)) = n.
Proof.
  induction 1 as [| i idx Hni Hnd IH]; intros Hall; simpl length.
  - clear Hall. unfold mark. simpl foldr. induction n as [| n IH]; [done |].
    change (replicate (S n) false) with (false :: replicate n false).
    rewrite filter_cons_True by done. simpl. by f_equal.
  - assert (Hi : mark n idx !! i = Some false).
    { rewrite mark_lookup by (apply Hall; by left).
      by rewrite bool_decide_eq_false_2. }
    apply kept_insert in Hi.
    assert (IH' : length idx
                  + length (filter (λ b : bool, b = false) (mark n idx)) = n).
    { apply IH. intros j Hj. apply Hall. by right. }
    change (mark n (i :: idx)) with (<[i := true]> (mark n idx)). lia.
Qed.

End Rows.

(** Selecting by a predicate of the rows themselves is filtering. *)
Lemma pick_fmap_filter {A B} (f : A → bool) (g : A → B) (l : list A) :
  pick (f <$> l) (g <$> l) = g <$> filter (λ a, f a = true) l.
Proof.
  induction l as [| a l IH]; [done |]. rewrite !fmap_cons. cbn [pick].
  destruct (f a) eqn:Hfa.
  - rewrite filter_cons_True by done. by rewrite fmap_cons, IH.
  - rewrite filter_cons_False by (by rewrite Hfa). done.
Qed.

Lemma compact_fmap_filter {A B} (f : A → bool) (g : A → B) (l : list A) :
  compact (f <$> l) (g <$> l) = g <$> filter (λ a, f a = false) l.
Proof.
  induction l as [| a l IH]; [done |]. rewrite !fmap_cons. cbn [compact].
  destruct (f a) eqn:Hfa.
  - rewrite filter_cons_False by (by rewrite Hfa). done.
  - rewrite filter_cons_True by done. by rewrite fmap_cons, IH.
Qed.

(** ** The service keeps every set consistent *)

Section Consistency.
Context {F : Type} `{!FloatOps F}.
Variable base_default : string → F.
Implicit Types (ps : ParticleSet F) (h : Heap F).

Lemma with_property_consistent ps p arr :
  consistent ps → length arr = num_particles ps →
  consistent (with_property ps p arr).
Proof. intros Hps Hlen. by apply map_Forall_insert_2. Qed.

Lemma base_properties_lengths n :
  map_Forall (λ _ arr, length arr = n) (base_properties base_default n).
Proof.
  unfold base_properties. generalize default_props as names.
  induction names as [| p names IH]; simpl.
  - apply map_Forall_empty.
  - apply map_Forall_insert_2; [apply length_replicate | apply IH].
Qed.

Lemma new_particle_array_consistent nm arrays ps :
  new_particle_array base_default nm arrays = inr ps → consistent ps.
Proof.
  unfold new_particle_array.
  generalize (match arrays with [] => 0 | (_, a) :: _ => length a end) as n.
  intros n. destruct (forallb _ arrays) eqn:Hall; [| done].
  intros [= <-]. unfold consistent. simpl.
  induction arrays as [| [p a] arrays IH]; simpl in *.
  - apply base_properties_lengths.
  - apply andb_true_iff in Hall as [Ha Hall].
    apply map_Forall_insert_2; [by apply Nat.eqb_eq | by apply IH].
Qed.

Lemma extract_consistent ps idx ps' :
  consistent ps → extract ps idx = inr ps' → consistent ps'.
Proof.
  unfold extract. intros Hps. destruct (in_range _ idx) eqn:Hin; [| done].
  intros [= <-]. unfold consistent. simpl. apply map_Forall_fmap.
  intros p arr Hp. simpl. apply Hps in Hp. simpl in Hp.
  apply length_rows_at. by rewrite Hp.
Qed.

Lemma remove_consistent ps idx ps' :
  consistent ps → remove ps idx = inr ps' → consistent ps'.
Proof.
  unfold remove. intros Hps. destruct (in_range _ idx) eqn:Hin; [| done].
  intros [= <-]. unfold consistent. simpl. apply map_Forall_fmap.
  intros p arr Hp. simpl. apply Hps in Hp. simpl in Hp.
  apply length_compact. by rewrite length_mark.
Qed.

Lemma add_consistent ps p ps' :
  consistent ps → add ps p = inr ps' → consistent ps'.
Proof.
  unfold add. intros Hps. destruct (properties ps !! p); [done |].
  intros [= <-]. apply with_property_consistent; [done |].
  apply length_replicate.
Qed.

Lemma assign_item_consistent ps p i v ps' :
  consistent ps → assign_item ps p i v = inr ps' → consistent ps'.
Proof.
  unfold assign_item, prop_of. intros Hps.
  destruct (properties ps !! p) as [arr |] eqn:Hp; [| done]. simpl.
  case_decide; [| done]. intros [= <-].
  apply with_property_consistent; [done |].
  rewrite length_insert. by apply Hps in Hp.
Qed.

Lemma assign_slice_consistent ps p vals ps' :
  consistent ps → assign_slice ps p vals = inr ps' → consistent ps'.
Proof.
  unfold assign_slice, prop_of. intros Hps.
  destruct (properties ps !! p) as [arr |] eqn:Hp; [| done]. simpl.
  case_decide as Hlen; [| done]. intros [= <-].
  apply with_property_consistent; [done |].
  rewrite Hlen. by apply Hps in Hp.
Qed.

Lemma assign_fill_consistent ps p v ps' :
  consistent ps → assign_fill ps p v = inr ps' → consistent ps'.
Proof.
  unfold assign_fill, prop_of. intros Hps.
  destruct (properties ps !! p) as [arr |] eqn:Hp; [| done]. simpl.
  intros [= <-]. apply with_property_consistent; [done |].
  rewrite length_replicate. by apply Hps in Hp.
Qed.

Lemma deref_consistent h r ps :
  heap_consistent h → deref h r = inr ps → consistent ps.
Proof.
  unfold deref. intros Hh. destruct (h !! r) as [ps0 |] eqn:Hr; [| done].
  intros [= <-]. eapply Forall_lookup_1; eauto.
Qed.

Lemma heap_update_consistent h r ps :
  heap_consistent h → consistent ps → heap_consistent (<[r := ps]> h).
Proof. intros Hh Hps. by apply Forall_insert. Qed.

Lemma heap_alloc_consistent h ps :
  heap_consistent h → consistent ps → heap_consistent (h ++ [ps]).
Proof. intros Hh Hps. apply Forall_app. split; [done | by constructor]. Qed.

(** Every call of the service preserves the invariant. *)
Lemma exec_consistent {R} (c : Call F R) h (res : R) h' :
  heap_consistent h → exec base_default c h = inr (res, h') →
  heap_consistent h'.
Proof.
  intros Hh. destruct c; simpl.
  - destruct (new_particle_array _ _ _) as [e | ps] eqn:Hnew; [done |].
    simpl. intros ?; simplify_eq. apply heap_alloc_consistent; [done |].
    by eapply new_particle_array_consistent.
  - destruct (deref h r) as [e | ps] eqn:Hr; [done |]. simpl.
    destruct (extract ps indices) as [e | ps'] eqn:Hex; [done |].
    simpl. intros ?; simplify_eq. apply heap_alloc_consistent; [done |].
    eapply extract_consistent; [| done]. by eapply deref_consistent.
  - destruct (deref h r) as [e | ps] eqn:Hr; [done |]. simpl.
    intros ?; simplify_eq. apply heap_update_consistent; [done |].
    exact (deref_consistent _ _ _ Hh Hr).
  - destruct (deref h r) as [e | ps] eqn:Hr; [done |]. simpl.
    destruct (remove ps indices) as [e | ps'] eqn:Hrm; [done |].
    simpl. intros ?; simplify_eq. apply heap_update_consistent; [done |].
    eapply remove_consistent; [| done]. by eapply deref_consistent.
  - destruct (deref h r) as [e | ps] eqn:Hr; [done |]. simpl.
    by intros ?; simplify_eq.
  - destruct (deref h r) as [e | ps] eqn:Hr; [done |]. simpl.
    destruct (prop_of ps p) as [e | arr]; [done |]. simpl.
    by intros ?; simplify_eq.
  - destruct (deref h r) as [e | ps] eqn:Hr; [done |]. simpl.
    destruct (assign_item ps p i v) as [e | ps'] eqn:Has; [done |].
    simpl. intros ?; simplify_eq. apply heap_update_consistent; [done |].
    eapply assign_item_consistent; [| done]. by eapply deref_consistent.
  - destruct (deref h r) as [e | ps] eqn:Hr; [done |]. simpl.
    destruct (assign_slice ps p vals) as [e | ps'] eqn:Has; [done |].
    simpl. intros ?; simplify_eq. apply heap_update_consistent; [done |].
    eapply assign_slice_consistent; [| done]. by eapply deref_consistent.
  - destruct (deref h r) as [e | ps] eqn:Hr; [done |]. simpl.
    destruct (assign_fill ps p v) as [e | ps'] eqn:Has; [done |].
    simpl. intros ?; simplify_eq. apply heap_update_consistent; [done |].
    eapply assign_fill_consistent; [| done]. by eapply deref_consistent.
  - destruct (deref h r) as [e | ps] eqn:Hr; [done |]. simpl.
    destruct (add ps p) as [e | ps'] eqn:Had; [done |].
    simpl. intros ?; simplify_eq. apply heap_update_consistent; [done |].
    eapply add_consistent; [| done]. by eapply deref_consistent.
Qed.

(** Hence every step of every program runs between consistent heaps, and
    a run that succeeds ends in one. *)
Lemma trace_consistent {A} (m : Prog F A) h :
  heap_consistent h →
  Forall (λ st, heap_consistent (step_pre st) ∧ heap_consistent (step_post st))
         (trace base_default m h).
Proof.
  revert h. induction m as [a | e | R c k IH]; intros h Hh; simpl;
    try by constructor.
  destruct (exec base_default c h) as [e | [res h']] eqn:Hex;
    [by constructor |].
  assert (heap_consistent h') by (by eapply exec_consistent).
  constructor; [done | by apply IH].
Qed.

Lemma run_consistent {A} (m : Prog F A) h (a : A) h' :
  heap_consistent h → run base_default m h = inr (a, h') →
  heap_consistent h'.
Proof.
  revert h. induction m as [a' | e | R c k IH]; intros h Hh; simpl.
  - by intros [= _ <-].
  - done.
  - destruct (exec base_default c h) as [e | [res h'']] eqn:Hex; [done |].
    apply IH. by eapply exec_consistent.
Qed.

End Consistency.

(** ** Calls on sets given by property tables *)

Lemma lookup_table {A} (tbl : list (string * A)) (k : string) :
  (list_to_map tbl : gmap string A) !! k = assoc k tbl.
Proof.
  induction tbl as [| [k' v] tbl IH]; simpl.
  - apply lookup_empty.
  - rewrite lookup_insert. destruct (String.eqb_spec k' k) as [-> | Hne].
    + by rewrite decide_True.
    + by rewrite decide_False.
Qed.

Lemma fmap_table {A B} (f : A → B) (tbl : list (string * A)) :
  f <$> (list_to_map tbl : gmap string A)
  = list_to_map (prod_map id f <$> tbl).
Proof.
  induction tbl as [| [k v] tbl IH]; simpl.
  - apply fmap_empty.
  - by rewrite fmap_insert, IH.
Qed.

Lemma foldr_insert_table {A} (arrays base : list (string * A)) :
  foldr (λ pa m, <[pa.1 := pa.2]> m) (list_to_map base : gmap string A) arrays
  = list_to_map (arrays ++ base).
Proof.
  induction arrays as [| [p a] arrays IH]; simpl; [done |]. by rewrite IH.
Qed.

Section TableCalls.
Context {F : Type} `{!FloatOps F}.
Variable base_default : string → F.
Implicit Types (h : Heap F) (tbl : list (string * list F)).

Lemma run_step {A R} (c : Call F R) (k : R → Prog F A) h (res : R) h' :
  exec base_default c h = inr (res, h') →
  run base_default (call c ≫= k) h = run base_default (k res) h'.
Proof. intros Hex. rewrite run_bind, run_call, Hex. done. Qed.

Lemma run_last {R} (c : Call F R) h (res : R) h' :
  exec base_default c h = inr (res, h') →
  run base_default (call c) h = inr (res, h').
Proof. intros Hex. by rewrite run_call. Qed.

Lemma trace_step {A R} (c : Call F R) (k : R → Prog F A) h (res : R) h' :
  exec base_default c h = inr (res, h') →
  trace base_default (call c ≫= k) h
  = mkStep (pack c) h h' :: trace base_default (k res) h'.
Proof. intros Hex. rewrite trace_bind, trace_call, run_call, Hex. done. Qed.

Lemma trace_last {R} (c : Call F R) h (res : R) h' :
  exec base_default c h = inr (res, h') →
  trace base_default (call c) h = [mkStep (pack c) h h'].
Proof. intros Hex. by rewrite trace_call, Hex. Qed.

Lemma exec_new nm (arrays : list (string * list F)) h n :
  n = match arrays with [] => 0 | (_, a) :: _ => length a end →
  forallb (λ pa, length pa.2 =? n) arrays = true →
  exec base_default (get_particle_array nm arrays) h
  = inr (length h,
         h ++ [table nm n
                 (arrays ++ ((λ p, (p, replicate n (base_default p)))
                              <$> default_props))]).
Proof.
  intros -> Hall. simpl. unfold new_particle_array. rewrite Hall. simpl.
  unfold table, base_properties. by rewrite foldr_insert_table.
Qed.

Lemma exec_extract r idx h nm n tbl :
  h !! r = Some (table nm n tbl) → in_range n idx = true →
  exec base_default (extract_particles r idx) h
  = inr (length h,
         h ++ [table nm (length idx) (prod_map id (rows_at idx) <$> tbl)]).
Proof.
  intros Hr Hin. simpl. unfold deref. rewrite Hr. simpl.
  unfold extract. simpl. rewrite Hin. simpl. unfold table.
  by rewrite fmap_table.
Qed.

Lemma exec_set_name r nm' h nm n tbl :
  h !! r = Some (table nm n tbl) →
  exec base_default (set_name r nm') h = inr ((), <[r := table nm' n tbl]> h).
Proof. intros Hr. simpl. unfold deref. by rewrite Hr. Qed.

Lemma exec_remove r idx h nm n tbl :
  h !! r = Some (table nm n tbl) → in_range n idx = true →
  exec base_default (remove_particles r idx) h
  = inr ((), <[r := table nm
                     (length (filter (λ b : bool, b = false) (mark n idx)))
                     (prod_map id (compact (mark n idx)) <$> tbl)]> h).
Proof.
  intros Hr Hin. simpl. unfold deref. rewrite Hr. simpl.
  unfold remove. simpl. rewrite Hin. simpl. unfold table.
  by rewrite fmap_table.
Qed.

Lemma exec_count r h nm n tbl :
  h !! r = Some (table nm n tbl) →
  exec base_default (get_number_of_particles r) h = inr (n, h).
Proof. intros Hr. simpl. unfold deref. by rewrite Hr. Qed.

Lemma exec_get r p h nm n tbl arr :
  h !! r = Some (table nm n tbl) → assoc p tbl = Some arr →
  exec base_default (get_property r p) h = inr (arr, h).
Proof.
  intros Hr Hp. simpl. unfold deref. rewrite Hr. simpl.
  unfold prop_of. simpl. by rewrite lookup_table, Hp.
Qed.

Lemma exec_set_slice r p vals h nm n tbl arr :
  h !! r = Some (table nm n tbl) → assoc p tbl = Some arr →
  length vals = length arr →
  exec base_default (set_slice r p vals) h
  = inr ((), <[r := table nm n ((p, vals) :: tbl)]> h).
Proof.
  intros Hr Hp Hlen. simpl. unfold deref. rewrite Hr. simpl.
  unfold assign_slice, prop_of. simpl. rewrite lookup_table, Hp. simpl.
  by rewrite decide_True.
Qed.

Lemma exec_fill_slice r p v h nm n tbl arr :
  h !! r = Some (table nm n tbl) → assoc p tbl = Some arr →
  exec base_default (fill_slice r p v) h
  = inr ((), <[r := table nm n ((p, replicate (length arr) v) :: tbl)]> h).
Proof.
  intros Hr Hp. simpl. unfold deref. rewrite Hr. simpl.
  unfold assign_fill, prop_of. simpl. by rewrite lookup_table, Hp.
Qed.

Lemma exec_add r p h nm n tbl :
  h !! r = Some (table nm n tbl) → assoc p tbl = None →
  exec base_default (add_property r p) h
  = inr ((), <[r := table nm n ((p, replicate n (lit 0)) :: tbl)]> h).
Proof.
  intros Hr Hp. simpl. unfold deref. rewrite Hr. simpl.
  unfold add. simpl. by rewrite lookup_table, Hp.
Qed.

End TableCalls.

(** ** The grid and the first loop *)

Section ScriptFacts.
Context {F : Type} `{!FloatOps F}.

Lemma length_mjoin_replicate {A} (k : nat) (l : list A) :
  length (mjoin (replicate k l)) = k * length l.
Proof.
  induction k as [| k IH]; simpl; [done |]. by rewrite length_app, IH.
Qed.

Lemma length_bind_replicate {A} (l : list A) (n : nat) :
  length (l ≫= λ v, replicate n v) = length l * n.
Proof.
  induction l as [| a l IH]; [done |].
  rewrite bind_cons, length_app, length_replicate, IH. simpl. lia.
Qed.

Lemma mesh_lengths : length (mesh (F:=F)).2 = length (mesh (F:=F)).1.
Proof.
  unfold mesh, meshgrid_ravel. simpl.
  rewrite length_mjoin_replicate, length_bind_replicate. done.
Qed.

Lemma sort_out_body_eq (x y : list F) i acc xi yi :
  x !! i = Some xi → y !! i = Some yi →
  sort_out_body x y i acc
  = Ret (if strictly_inside (xi, yi) then acc ++ [i] else acc).
Proof.
  intros Hx Hy. unfold sort_out_body, and_then, index, strictly_inside.
  rewrite Hx, Hy. simpl.
  destruct (fgt xi (lit 0.0)); simpl; [| done].
  destruct (flt xi Lx); simpl; [| done].
  destruct (fgt yi (lit 0.0)); simpl; [| done].
  by destruct (flt yi Ly).
Qed.

Lemma sort_out_loop (x y : list F) :
  length y = length x →
  ∀ m j acc, j + m = length x →
  for_fold (seq j m) acc (sort_out_body x y)
  = Ret (acc ++ selected j (strictly_inside <$> drop j (zip x y))).
Proof.
  intros Hlen m. induction m as [| m IH]; intros j acc Hj.
  - simpl. rewrite drop_ge, app_nil_r; [done |].
    rewrite length_zip_with. lia.
  - destruct (lookup_lt_is_Some_2 x j) as [xj Hxj]; [lia |].
    destruct (lookup_lt_is_Some_2 y j) as [yj Hyj]; [lia |].
    assert (Hz : zip x y !! j = Some (xj, yj)).
    { rewrite lookup_zip_with, Hxj. simpl. by rewrite Hyj. }
    rewrite (drop_S _ _ _ Hz), fmap_cons.
    change (seq j (S m)) with (j :: seq (S j) m).
    cbn [for_fold selected]. rewrite (sort_out_body_eq x y j acc xj yj) by done.
    change (Ret ?a ≫= ?f) with (f a). cbv beta.
    rewrite IH by lia. destruct (strictly_inside (xj, yj)); [| done].
    by rewrite <- app_assoc.
Qed.

Lemma sort_out_eq (x y : list F) :
  length y = length x → sort_out x y = Ret (inside_offsets x y).
Proof.
  intros Hlen. unfold sort_out. by rewrite (sort_out_loop x y Hlen _ 0 []).
Qed.
End ScriptFacts.

(** ** The second loop *)

Section PhaseFacts.
Context {F : Type} `{!FloatOps F}.
Variable base_default : string → F.

Lemma index_Some (arr : list F) i v : arr !! i = Some v → index arr i = Ret v.
Proof. intros Hi. unfold index. by rewrite Hi. Qed.

Lemma phases_body_run (r : ref) nm n (M : gmap string (list F)) xs ys
    i xi yi cur (h : Heap F) :
  M !! "x" = Some xs → M !! "y" = Some ys →
  xs !! i = Some xi → ys !! i = Some yi → i < length cur →
  h !! r = Some (mkParticleSet nm n (<["rho" := cur]> M)) →
  run base_default (sort_out_phases_body r i) h
  = inr ((), <[r := mkParticleSet nm n
                      (<["rho" := <[i := phase (xi, yi)]> cur]> M)]> h).
Proof.
  intros Hx Hy Hxi Hyi Hi Hr.
  assert (Hget : ∀ p arr, p ≠ "rho" → M !! p = Some arr →
            exec base_default (get_property r p) h = inr (arr, h)).
  { intros p arr Hp Harr. simpl. unfold deref. rewrite Hr. simpl.
    unfold prop_of. simpl. rewrite lookup_insert_ne by done. by rewrite Harr. }
  assert (Hset : ∀ v, exec base_default (set_item r "rho" i v) h
            = inr ((), <[r := mkParticleSet nm n
                                 (<["rho" := <[i := v]> cur]> M)]> h)).
  { intros v. simpl. unfold deref. rewrite Hr. simpl.
    unfold assign_item, prop_of. simpl. rewrite lookup_insert_eq. simpl.
    rewrite decide_True by done. unfold with_property. simpl.
    by rewrite insert_insert_eq. }
  unfold sort_out_phases_body.
  rewrite (run_step _ _ _ _ _ _ (Hget "y" ys ltac:(done) Hy)). cbv beta.
  rewrite (index_Some _ _ _ Hyi). change (Ret yi ≫= ?f) with (f yi). cbv beta.
  rewrite (run_step _ _ _ _ _ _ (Hget "x" xs ltac:(done) Hx)). cbv beta.
  rewrite (index_Some _ _ _ Hxi). change (Ret xi ≫= ?f) with (f xi). cbv beta.
  unfold phase. simpl. destruct (above_interface xi yi); by rewrite run_call, Hset.
Qed.

Lemma phases_loop (r : ref) nm n (M : gmap string (list F)) xs ys :
  M !! "x" = Some xs → M !! "y" = Some ys → length xs = n → length ys = n →
  ∀ m j cur (h : Heap F), j + m = n → length cur = n →
    h !! r = Some (mkParticleSet nm n (<["rho" := cur]> M)) →
    run base_default (for_each (seq j m) (sort_out_phases_body r)) h
    = inr ((), <[r := mkParticleSet nm n
                   (<["rho" := take j cur ++ (phase <$> drop j (zip xs ys))]> M)]> h).
Proof.
  intros Hx Hy Hlx Hly m. induction m as [| m IH]; intros j cur h Hj Hcur Hr.
  - rewrite drop_ge by (rewrite length_zip_with; lia).
    rewrite take_ge by lia. rewrite app_nil_r.
    by rewrite list_insert_id.
  - destruct (lookup_lt_is_Some_2 xs j) as [xj Hxj]; [lia |].
    destruct (lookup_lt_is_Some_2 ys j) as [yj Hyj]; [lia |].
    assert (Hz : zip xs ys !! j = Some (xj, yj)).
    { rewrite lookup_zip_with, Hxj. simpl. by rewrite Hyj. }
    rewrite (drop_S _ _ _ Hz), fmap_cons.
    change (seq j (S m)) with (j :: seq (S j) m). cbn [for_each].
    rewrite run_bind.
    rewrite (phases_body_run r nm n M xs ys j xj yj cur h) by (done || lia).
    rewrite (IH (S j) (<[j := phase (xj, yj)]> cur)).
    + rewrite list_insert_insert_eq. do 4 f_equal.
      rewrite take_S_r with (x := phase (xj, yj)).
      * rewrite take_insert_ge by lia. by rewrite <- app_assoc.
      * apply list_lookup_insert_eq. lia.
    + lia.
    + by rewrite length_insert.
    + apply list_lookup_insert_eq. by eapply lookup_lt_Some.
Qed.

(** The second loop on a set given by a table. *)
Lemma run_sort_out_phases {A} (r : ref) (k : unit → Prog F A) (h : Heap F)
    nm n tbl xs ys rs :
  h !! r = Some (table nm n tbl) →
  assoc "x" tbl = Some xs → assoc "y" tbl = Some ys →
  assoc "rho" tbl = Some rs →
  length xs = n → length ys = n → length rs = n →
  run base_default (sort_out_phases r ≫= k) h
  = run base_default (k ())
      (<[r := table nm n (("rho", phase <$> zip xs ys) :: tbl)]> h).
Proof.
  intros Hr Hx Hy Hrho Hlx Hly Hlr. rewrite run_bind. unfold sort_out_phases.
  rewrite (run_step _ _ _ _ _ _ (exec_count _ _ _ _ _ _ Hr)). cbv beta.
  rewrite (phases_loop r nm n (list_to_map tbl) xs ys) with (cur := rs);
    try done; try (by rewrite lookup_table).
  rewrite Hr. unfold table. do 2 f_equal.
  symmetry. apply insert_id. by rewrite lookup_table.
Qed.

End PhaseFacts.

(** ** The calls of the second loop *)

Section TraceFacts.
Context {F : Type} `{!FloatOps F}.
Variable base_default : string → F.

(** What the second loop calls: per particle two reads and one assignment
    to [rho]. *)
Lemma trace_phases_body {B} (f : {R : Type & Call F R} → option B) (o : option B)
    (r : nat) nm n (M : gmap string (list F)) xs ys i xi yi cur (h : Heap F) :
  (∀ p, f (pack (get_property r p)) = None) →
  (∀ j v, f (pack (set_item r "rho" j v)) = o) →
  M !! "x" = Some xs → M !! "y" = Some ys →
  xs !! i = Some xi → ys !! i = Some yi → i < length cur →
  h !! r = Some (mkParticleSet nm n (<["rho" := cur]> M)) →
  omap (λ st, f (step_call st))
       (trace base_default (sort_out_phases_body r i) h)
  = option_list o.
Proof.
  intros Hfget Hfset Hx Hy Hxi Hyi Hi Hr.
  assert (Hget : ∀ p arr, p ≠ "rho" → M !! p = Some arr →
            exec base_default (get_property r p) h = inr (arr, h)).
  { intros p arr Hp Harr. simpl. unfold deref. rewrite Hr. simpl.
    unfold prop_of. simpl. rewrite lookup_insert_ne by done. by rewrite Harr. }
  assert (Hset : ∀ v, ∃ h', exec base_default (set_item r "rho" i v) h
                            = inr ((), h')).
  { intros v. simpl. unfold deref. rewrite Hr. simpl.
    unfold assign_item, prop_of. simpl. rewrite lookup_insert_eq. simpl.
    rewrite decide_True by done. by eexists. }
  unfold sort_out_phases_body.
  rewrite (trace_step _ _ _ _ _ _ (Hget "y" ys ltac:(done) Hy)). cbv beta.
  rewrite (index_Some _ _ _ Hyi). change (Ret yi ≫= ?g) with (g yi). cbv beta.
  rewrite (trace_step _ _ _ _ _ _ (Hget "x" xs ltac:(done) Hx)). cbv beta.
  rewrite (index_Some _ _ _ Hxi). change (Ret xi ≫= ?g) with (g xi). cbv beta.
  cbn [omap list_omap step_call]. rewrite !Hfget.
  destruct (above_interface xi yi).
  - destruct (Hset rho1) as [h' Hh']. rewrite (trace_last _ _ _ _ _ Hh').
    cbn [omap list_omap step_call]. rewrite Hfset. by destruct o.
  - destruct (Hset rho2) as [h' Hh']. rewrite (trace_last _ _ _ _ _ Hh').
    cbn [omap list_omap step_call]. rewrite Hfset. by destruct o.
Qed.

Lemma trace_phases_loop {B} (f : {R : Type & Call F R} → option B) (o : option B)
    (r : nat) nm n (M : gmap string (list F)) xs ys :
  (∀ p, f (pack (get_property r p)) = None) →
  (∀ j v, f (pack (set_item r "rho" j v)) = o) →
  M !! "x" = Some xs → M !! "y" = Some ys → length xs = n → length ys = n →
  ∀ m j cur (h : Heap F), j + m = n → length cur = n →
    h !! r = Some (mkParticleSet nm n (<["rho" := cur]> M)) →
    omap (λ st, f (step_call st))
         (trace base_default (for_each (seq j m) (sort_out_phases_body r)) h)
    = mjoin (replicate m (option_list o)).
Proof.
  intros Hfget Hfset Hx Hy Hlx Hly m.
  induction m as [| m IH]; intros j cur h Hj Hcur Hr; [done |].
  destruct (lookup_lt_is_Some_2 xs j) as [xj Hxj]; [lia |].
  destruct (lookup_lt_is_Some_2 ys j) as [yj Hyj]; [lia |].
  change (seq j (S m)) with (j :: seq (S j) m). cbn [for_each].
  rewrite trace_bind, omap_app.
  rewrite (trace_phases_body f o r nm n M xs ys j xj yj cur h) by (done || lia).
  rewrite (phases_body_run base_default r nm n M xs ys j xj yj cur h)
    by (done || lia).
  rewrite (IH (S j) (<[j := phase (xj, yj)]> cur)).
  - done.
  - lia.
  - by rewrite length_insert.
  - apply list_lookup_insert_eq. by eapply lookup_lt_Some.
Qed.

Lemma trace_sort_out_phases {B} (f : {R : Type & Call F R} → option B)
    (o : option B) (r : nat) (h : Heap F) nm n tbl xs ys rs :
  (∀ p, f (pack (get_property r p)) = None) →
  f (pack (get_number_of_particles r)) = None →
  (∀ j v, f (pack (set_item r "rho" j v)) = o) →
  h !! r = Some (table nm n tbl) →
  assoc "x" tbl = Some xs → assoc "y" tbl = Some ys →
  assoc "rho" tbl = Some rs →
  length xs = n → length ys = n → length rs = n →
  omap (λ st, f (step_call st)) (trace base_default (sort_out_phases r) h)
  = mjoin (replicate n (option_list o)).
Proof.
  intros Hfget Hfcount Hfset Hr Hx Hy Hrho Hlx Hly Hlr. unfold sort_out_phases.
  rewrite (trace_step _ _ _ _ _ _ (exec_count _ _ _ _ _ _ Hr)). cbv beta.
  cbn [omap list_omap step_call]. rewrite Hfcount.
  apply (trace_phases_loop f o r nm n (list_to_map tbl) xs ys) with (cur := rs);
    try done; try (by rewrite lookup_table).
  rewrite Hr. unfold table. do 2 f_equal.
  symmetry. apply insert_id. by rewrite lookup_table.
Qed.

End TraceFacts.

(** ** The script, stage by stage *)

Section StageFacts.
Context {F : Type} `{!FloatOps F}.
Variable base_default : string → F.

Lemma rows_at_selected0 {A} (mask : list bool) (arr : list A) :
  length mask = length arr → rows_at (selected 0 mask) arr = pick mask arr.
Proof. intros Hlen. by apply (rows_at_selected mask arr []). Qed.

Lemma mark_selected0 (mask : list bool) :
  mark (length mask) (selected 0 mask) = mask.
Proof. apply (mark_selected mask 0). Qed.

Lemma exec_extract_selected r (mask : list bool) (h : Heap F) nm n tbl :
  h !! r = Some (table nm n tbl) → length mask = n →
  Forall (λ e : string * list F, length e.2 = n) tbl →
  exec base_default (extract_particles r (selected 0 mask)) h
  = inr (length h,
         h ++ [table nm (length (selected 0 mask))
                 (prod_map id (pick mask) <$> tbl)]).
Proof.
  intros Hr Hmask Hall. rewrite (exec_extract _ _ _ _ _ _ _ Hr).
  - do 5 f_equal. apply Forall_fmap_ext_1. eapply Forall_impl; [exact Hall |].
    intros [p arr] Harr. simpl in *. unfold prod_map. simpl. f_equal.
    apply rows_at_selected0. lia.
  - rewrite <- Hmask. apply in_range_selected.
Qed.

Lemma exec_remove_selected r (mask : list bool) (h : Heap F) nm n tbl :
  h !! r = Some (table nm n tbl) → length mask = n →
  exec base_default (remove_particles r (selected 0 mask)) h
  = inr ((), <[r := table nm (length (filter (λ b : bool, b = false) mask))
                     (prod_map id (compact mask) <$> tbl)]> h).
Proof.
  intros Hr Hmask. rewrite (exec_remove _ _ _ _ _ _ _ Hr).
  - subst n. by rewrite mark_selected0.
  - rewrite <- Hmask. apply in_range_selected.
Qed.

Lemma length_pick_selected {A} (mask : list bool) (arr : list A) :
  length arr = length mask → length (pick mask arr) = length (selected 0 mask).
Proof. intros Hlen. symmetry. by apply length_selected. Qed.

Lemma length_compact_kept {A} (mask : list bool) (arr : list A) :
  length arr = length mask →
  length (compact mask arr) = length (filter (λ b : bool, b = false) mask).
Proof. intros Hlen. by apply length_compact. Qed.

Lemma length_grid_mask : length (grid_mask (F:=F)) = length (mesh (F:=F)).1.
Proof.
  unfold grid_mask, grid_points.
  rewrite length_fmap, length_zip_with, mesh_lengths. lia.
Qed.

Lemma base_table_lengths :
  Forall (λ e : string * list F, length e.2 = length (mesh (F:=F)).1)
         (base_table base_default).
Proof.
  unfold base_table. repeat constructor; simpl; try apply length_replicate.
  apply mesh_lengths.
Qed.

Lemma length_fluid_rho : length (fluid_rho (F:=F)) = n_fluid.
Proof.
  unfold fluid_rho, n_fluid.
  rewrite length_fmap, length_zip_with, !length_pick_selected;
    rewrite ?length_grid_mask, ?mesh_lengths; lia.
Qed.

End StageFacts.

(** Tactics that run the script one call at a time on sets given by
    tables. *)
Ltac step lem :=
  erewrite run_step; [ | eapply lem; try reflexivity ]; cbv beta.

Ltac finish lem :=
  erewrite run_last; [ | eapply lem; try reflexivity ].

Ltac lengths :=
  unfold zeros; cbn [fst snd];
  repeat first
    [ rewrite length_fmap | rewrite length_replicate | rewrite length_zip_with
    | rewrite length_fluid_rho | rewrite length_grid_mask
    | rewrite mesh_lengths
    | rewrite length_pick_selected by lengths
    | rewrite length_compact_kept by lengths ];
  try done; try lia.

Ltac add_all :=
  repeat (first [ step exec_add | step exec_get
                | erewrite run_step;
                  [| eapply exec_set_slice; [reflexivity .. |]; lengths];
                  cbv beta ];
          cbn [insert list_insert]).

Ltac tstep lem :=
  erewrite trace_step; [ | eapply lem; try reflexivity ]; cbv beta.

Ltac tfinish lem :=
  erewrite trace_last; [ | eapply lem; try reflexivity ].

Ltac trace_all :=
  repeat (first [ tstep exec_add | tstep exec_get | tstep exec_fill_slice
                | erewrite trace_step;
                  [| eapply exec_set_slice; [reflexivity .. |]; lengths];
                  cbv beta ];
          cbn [insert list_insert]).

Section Stages.
Context {F : Type} `{!FloatOps F}.
Variable base_default : string → F.

(** The first loop has no call: it returns the offsets and leaves the heap
    as it is. *)
Lemma run_split {A} (k : list nat → Prog F A) :
  run base_default (sort_out mesh.1 mesh.2 ≫= k) []
  = run base_default (k (selected 0 grid_mask)) [].
Proof. by rewrite run_bind, (sort_out_eq _ _ mesh_lengths). Qed.

Lemma trace_split {A} (k : list nat → Prog F A) :
  trace base_default (sort_out mesh.1 mesh.2 ≫= k) []
  = trace base_default (k (selected 0 grid_mask)) [].
Proof. by rewrite trace_bind, (sort_out_eq _ _ mesh_lengths). Qed.

Lemma exec_line_59 :
  exec base_default
    (get_particle_array "solid" [("x", mesh.1); ("y", mesh.2)]) []
  = inr (0, [base_set base_default]).
Proof.
  erewrite exec_new; [reflexivity | reflexivity |].
  cbn [forallb snd]. by rewrite mesh_lengths, Nat.eqb_refl.
Qed.

Lemma exec_line_62 :
  exec base_default (extract_particles 0 (selected 0 grid_mask))
    [base_set base_default]
  = inr (1, [base_set base_default; extracted base_default]).
Proof.
  erewrite exec_extract_selected;
    [reflexivity | reflexivity | apply length_grid_mask
    | apply base_table_lengths].
Qed.

Lemma exec_line_63 :
  exec base_default (remove_particles 0 (selected 0 grid_mask))
    [base_set base_default; split_fluid base_default]
  = inr ((), [split_solid base_default; split_fluid base_default]).
Proof.
  erewrite exec_remove_selected;
    [reflexivity | reflexivity | apply length_grid_mask].
Qed.

(** Lines 40-71 in the non-empty branch. *)
Lemma run_create_sets_false :
  run base_default (create_sets false) []
  = inr ((1, 0), [split_solid base_default; seeded_fluid base_default]).
Proof.
  unfold create_sets. cbv zeta. rewrite run_split.
  rewrite (run_step _ _ _ _ _ _ exec_line_59). cbv beta.
  rewrite (run_step _ _ _ _ _ _ exec_line_62). cbv beta.
  step exec_set_name. cbn [insert list_insert].
  rewrite (run_step _ _ _ _ _ _ exec_line_63). cbv beta.
  erewrite run_sort_out_phases; [| reflexivity ..| | |]; [| lengths ..].
  reflexivity.
Qed.

Lemma trace_create_sets_false :
  trace base_default (create_sets false) []
  = [ mkStep (pack (get_particle_array "solid"
                          [("x", mesh.1); ("y", mesh.2)]))
        [] [base_set base_default];
      mkStep (pack (extract_particles 0 (selected 0 grid_mask)))
        [base_set base_default]
        [base_set base_default; extracted base_default];
      mkStep (pack (set_name 1 "fluid"))
        [base_set base_default; extracted base_default]
        [base_set base_default; split_fluid base_default];
      mkStep (pack (remove_particles 0 (selected 0 grid_mask)))
        [base_set base_default; split_fluid base_default]
        [split_solid base_default; split_fluid base_default] ]
    ++ trace base_default (sort_out_phases 1)
         [split_solid base_default; split_fluid base_default].
Proof.
  unfold create_sets. cbv zeta. rewrite trace_split.
  rewrite (trace_step _ _ _ _ _ _ exec_line_59). cbv beta.
  rewrite (trace_step _ _ _ _ _ _ exec_line_62). cbv beta.
  erewrite trace_step; [| eapply exec_set_name; reflexivity]. cbv beta.
  cbn [insert list_insert].
  rewrite (trace_step _ _ _ _ _ _ exec_line_63). cbv beta.
  rewrite trace_bind. cbn [app]. do 4 f_equal.
  destruct (run _ _ _) as [e | [[] h']]; simpl; by rewrite app_nil_r.
Qed.

(** Lines 77-108 in the non-empty branch. *)
Lemma run_add_properties_false :
  run base_default (add_properties 1 0)
    [split_solid base_default; seeded_fluid base_default]
  = inr ((), [added_solid base_default; added_fluid base_default]).
Proof.
  unfold add_properties, split_solid, seeded_fluid.
  add_all. finish exec_add. reflexivity.
Qed.

(** Lines 110-123. *)
Lemma run_setup_properties :
  run base_default (setup_properties 1 0)
    [added_solid base_default; added_fluid base_default]
  = inr ((), [final_solid base_default; final_fluid base_default]).
Proof.
  unfold setup_properties, added_solid, added_fluid. cbv zeta.
  add_all. do 3 (step exec_fill_slice; cbn [insert list_insert]).
  finish exec_fill_slice. cbn [insert list_insert].
  unfold final_solid, final_fluid, fluid_setup, solid_setup, fluid_added,
    solid_added, zeros, fluid_rows, solid_rows, base_table.
  cbn [app fmap list_fmap prod_map fst snd id default_props].
  rewrite !length_replicate.
  rewrite !length_pick_selected, !length_compact_kept
    by (rewrite length_replicate, length_grid_mask; done).
  reflexivity.
Qed.

Lemma run_create_particles_false :
  run base_default (create_particles false) []
  = inr ((1, 0), [final_solid base_default; final_fluid base_default]).
Proof.
  unfold create_particles. rewrite run_bind, run_create_sets_false.
  cbv beta iota. rewrite run_bind, run_add_properties_false.
  cbn [negb]. by rewrite run_bind, run_setup_properties.
Qed.

Lemma run_create_particles_true :
  run base_default (create_particles true) []
  = inr ((0, 1), [empty_fluid base_default; empty_solid base_default]).
Proof.
  unfold create_particles, create_sets. rewrite run_bind.
  erewrite run_step; [| eapply exec_new; reflexivity]. cbv beta.
  erewrite run_step; [| eapply exec_new; reflexivity]. cbv beta.
  change (run base_default (mret ?a) ?h) with (inr (a, h) : Error + _).
  cbv beta iota. cbn [app length]. rewrite run_bind. unfold add_properties.
  cbn [fmap list_fmap default_props].
  repeat (first [ step exec_add | step exec_get | step exec_set_slice ];
          cbn [insert list_insert]).
  finish exec_add. cbn [insert list_insert]. cbv beta iota. reflexivity.
Qed.

Lemma final_sets_false :
  final_sets base_default false
  = Some (final_fluid base_default, final_solid base_default).
Proof. unfold final_sets. by rewrite run_create_particles_false. Qed.

Lemma final_sets_true :
  final_sets base_default true
  = Some (empty_fluid base_default, empty_solid base_default).
Proof. unfold final_sets. by rewrite run_create_particles_true. Qed.

End Stages.

(** ** The calls of the script *)

Section TraceStages.
Context {F : Type} `{!FloatOps F}.
Variable base_default : string → F.

Lemma calls_add_properties_false :
  step_call <$> trace base_default (add_properties 1 0)
                  [split_solid base_default; seeded_fluid base_default]
  = [ pack (add_property 1 "V"); pack (add_property 0 "V");
      pack (add_property 1 "uhat"); pack (add_property 1 "vhat");
      pack (add_property 0 "uhat"); pack (add_property 0 "vhat");
      pack (add_property 1 "auhat"); pack (add_property 1 "avhat");
      pack (add_property 1 "au"); pack (add_property 1 "av");
      pack (add_property 1 "aw");
      pack (add_property 1 "rho0");
      pack (get_property 1 "rho");
      pack (set_slice 1 "rho0" fluid_rho);
      pack (add_property 1 "p0");
      pack (get_property 1 "rho");
      pack (set_slice 1 "p0" (fdiv (fpow c0 2) <$> fluid_rho));
      pack (add_property 0 "wij"); pack (add_property 0 "u0");
      pack (add_property 0 "v0") ].
Proof.
  unfold add_properties, split_solid, seeded_fluid.
  trace_all. tfinish exec_add. reflexivity.
Qed.

Lemma calls_setup_properties :
  step_call <$> trace base_default (setup_properties 1 0)
                  [added_solid base_default; added_fluid base_default]
  = [ pack (get_property 1 "rho");
      pack (set_slice 1 "m" (fmul (fmul dx dx) <$> fluid_rho));
      pack (fill_slice 1 "V" (fdiv (lit 1.0) (fmul dx dx)));
      pack (fill_slice 0 "V" (fdiv (lit 1.0) (fmul dx dx)));
      pack (fill_slice 1 "h" (fmul hdx dx));
      pack (fill_slice 0 "h" (fmul hdx dx)) ].
Proof.
  unfold setup_properties, added_solid, added_fluid. cbv zeta.
  trace_all. tfinish exec_fill_slice. reflexivity.
Qed.

Lemma steps_false :
  steps base_default false
  = trace base_default (create_sets false) []
    ++ trace base_default (add_properties 1 0)
         [split_solid base_default; seeded_fluid base_default]
    ++ trace base_default (setup_properties 1 0)
         [added_solid base_default; added_fluid base_default].
Proof.
  unfold steps, create_particles.
  rewrite trace_bind, run_create_sets_false. cbv beta iota.
  rewrite trace_bind, run_add_properties_false. cbv beta iota. cbn [negb].
  rewrite trace_bind, run_setup_properties. cbv beta iota.
  change (trace base_default (mret ?a) ?h) with (@nil (Step (F:=F))).
  by rewrite app_nil_r.
Qed.

Lemma omap_calls {B} (f : {R : Type & Call F R} → option B) (l : list (Step (F:=F))) :
  omap (λ st, f (step_call st)) l = omap f (step_call <$> l).
Proof.
  induction l as [| st l IH]; [done |].
  rewrite fmap_cons. cbn [omap list_omap]. by rewrite IH.
Qed.

Lemma mjoin_replicate_Some {B} (n : nat) (b : B) :
  mjoin (replicate n (option_list (Some b))) = replicate n b.
Proof. induction n as [| n IH]; [done |]. simpl. f_equal. exact IH. Qed.

Lemma mjoin_replicate_None {B} (n : nat) :
  mjoin (replicate n (option_list (@None B))) = [].
Proof. induction n as [| n IH]; [done |]. simpl. exact IH. Qed.

Lemma omap_trace_create_sets_false {B}
    (f : {R : Type & Call F R} → option B) (o : option B) :
  (∀ nm arrays, f (pack (get_particle_array nm arrays)) = None) →
  (∀ r idx, f (pack (extract_particles r idx)) = None) →
  (∀ r nm, f (pack (set_name r nm)) = None) →
  (∀ r idx, f (pack (remove_particles r idx)) = None) →
  (∀ r, f (pack (get_number_of_particles r)) = None) →
  (∀ r p, f (pack (get_property r p)) = None) →
  (∀ j v, f (pack (set_item 1 "rho" j v)) = o) →
  omap (λ st, f (step_call st)) (trace base_default (create_sets false) [])
  = mjoin (replicate n_fluid (option_list o)).
Proof.
  intros Hnew Hex Hname Hrm Hcount Hget Hset.
  rewrite trace_create_sets_false, omap_app.
  cbn [omap list_omap step_call]. rewrite Hnew, Hex, Hname, Hrm.
  cbn [app].
  eapply trace_sort_out_phases;
    [done | done | done | reflexivity | reflexivity | reflexivity
    | reflexivity | lengths ..].
Qed.

Lemma assignments_false :
  assignments (steps base_default false)
  = replicate n_fluid (1, "rho")
    ++ [(1, "rho0"); (1, "p0"); (1, "m"); (1, "V"); (0, "V");
        (1, "h"); (0, "h")].
Proof.
  unfold assignments. rewrite steps_false, !omap_app. f_equal.
  - rewrite (omap_trace_create_sets_false
               (λ c, assigns (projT2 c)) (Some (1, "rho"))) by done.
    apply mjoin_replicate_Some.
  - rewrite !(omap_calls (λ c, assigns (projT2 c))).
    by rewrite calls_add_properties_false, calls_setup_properties.
Qed.

Lemma additions_false :
  additions (steps base_default false)
  = [(1, "V"); (0, "V"); (1, "uhat"); (1, "vhat"); (0, "uhat"); (0, "vhat");
     (1, "auhat"); (1, "avhat"); (1, "au"); (1, "av"); (1, "aw");
     (1, "rho0"); (1, "p0"); (0, "wij"); (0, "u0"); (0, "v0")].
Proof.
  unfold additions. rewrite steps_false, !omap_app.
  rewrite (omap_trace_create_sets_false (λ c, adds (projT2 c)) None) by done.
  rewrite mjoin_replicate_None.
  rewrite !(omap_calls (λ c, adds (projT2 c))).
  by rewrite calls_add_properties_false, calls_setup_properties.
Qed.

Lemma assignments_true :
  assignments (steps base_default true) = [(0, "rho0"); (0, "p0")].
Proof. vm_compute. reflexivity. Qed.

Lemma additions_true :
  additions (steps base_default true)
  = [(0, "V"); (1, "V"); (0, "uhat"); (0, "vhat"); (1, "uhat"); (1, "vhat");
     (0, "auhat"); (0, "avhat"); (0, "au"); (0, "av"); (0, "aw");
     (0, "rho0"); (0, "p0"); (1, "wij"); (1, "u0"); (1, "v0")].
Proof. vm_compute. reflexivity. Qed.

End TraceStages.

(** ** The returned sets *)

Section Returned.
Context {F : Type} `{!FloatOps F}.
Variable base_default : string → F.

Lemma holds_table nm n (tbl : list (string * list F)) p arr :
  assoc p tbl = Some arr → holds (table nm n tbl) p arr.
Proof. intros Hp. unfold holds, table. simpl. by rewrite lookup_table. Qed.

Lemma points_table nm n (tbl : list (string * list F)) xs ys :
  assoc "x" tbl = Some xs → assoc "y" tbl = Some ys →
  points (table nm n tbl) = zip xs ys.
Proof.
  intros Hx Hy. unfold points, table. simpl. by rewrite !lookup_table, Hx, Hy.
Qed.

Lemma mesh_fst : (grid_points (F:=F)).*1 = (mesh (F:=F)).1.
Proof. apply fst_zip. rewrite mesh_lengths. done. Qed.

Lemma mesh_snd : (grid_points (F:=F)).*2 = (mesh (F:=F)).2.
Proof. apply snd_zip. rewrite mesh_lengths. done. Qed.

Lemma zip_pick_grid :
  zip (pick grid_mask (mesh (F:=F)).1) (pick grid_mask (mesh (F:=F)).2)
  = filter (λ p, strictly_inside p = true) grid_points.
Proof.
  rewrite <- mesh_fst at 1. rewrite <- mesh_snd at 1. unfold grid_mask.
  rewrite !pick_fmap_filter. apply zip_fst_snd.
Qed.

Lemma zip_compact_grid :
  zip (compact grid_mask (mesh (F:=F)).1) (compact grid_mask (mesh (F:=F)).2)
  = filter (λ p, strictly_inside p = false) grid_points.
Proof.
  rewrite <- mesh_fst at 1. rewrite <- mesh_snd at 1. unfold grid_mask.
  rewrite !compact_fmap_filter. apply zip_fst_snd.
Qed.

Lemma points_final_fluid :
  points (final_fluid base_default)
  = filter (λ p, strictly_inside p = true) grid_points.
Proof.
  unfold final_fluid. erewrite points_table; [| reflexivity ..].
  apply zip_pick_grid.
Qed.

Lemma points_final_solid :
  points (final_solid base_default)
  = filter (λ p, strictly_inside p = false) grid_points.
Proof.
  unfold final_solid. erewrite points_table; [| reflexivity ..].
  apply zip_compact_grid.
Qed.

Lemma n_fluid_points :
  n_fluid (F:=F) = length (filter (λ p, strictly_inside p = true) (grid_points (F:=F))).
Proof.
  rewrite <- zip_pick_grid, length_zip_with. unfold n_fluid.
  rewrite !length_pick_selected; rewrite ?length_grid_mask, ?mesh_lengths; lia.
Qed.

Lemma n_solid_points :
  n_solid (F:=F) = length (filter (λ p, strictly_inside p = false) (grid_points (F:=F))).
Proof.
  rewrite <- zip_compact_grid, length_zip_with. unfold n_solid.
  rewrite !length_compact_kept; rewrite ?length_grid_mask, ?mesh_lengths; lia.
Qed.

End Returned.

(** C1. With the constants of the script, [create_particles(empty=False)]
    returns a fluid set holding exactly the points of the padded grid that
    lie strictly inside [(0,Lx) x (0,Ly)] and a solid set holding exactly the
    remaining points; the density of every fluid particle is [rho1] where
    [y > 1 - 0.15*sin(2*pi*x)] and [rho2] elsewhere. *)
Theorem create_particles_sorts_the_grid
    {F : Type} `{!FloatOps F} (base_default : string → F) :
  ∃ fluid solid fx fy sx sy rho,
    final_sets base_default false = Some (fluid, solid)
    ∧ holds fluid "x" fx ∧ holds fluid "y" fy
    ∧ holds solid "x" sx ∧ holds solid "y" sy
    ∧ length fx = num_particles fluid ∧ length fy = num_particles fluid
    ∧ length sx = num_particles solid ∧ length sy = num_particles solid
    ∧ zip fx fy
      = filter (λ p, (fgt p.1 (lit 0.0) && flt p.1 Lx
                      && (fgt p.2 (lit 0.0) && flt p.2 Ly)) = true)
          (zip mesh.1 mesh.2)
    ∧ zip sx sy
      = filter (λ p, (fgt p.1 (lit 0.0) && flt p.1 Lx
                      && (fgt p.2 (lit 0.0) && flt p.2 Ly)) = false)
          (zip mesh.1 mesh.2)
    ∧ holds fluid "rho" rho
    ∧ rho = (λ p, if fgt p.2 (fsub (of_int 1)
                       (fmul (lit 0.15) (fsin (fmul (fmul (of_int 2) fpi) p.1))))
                  then rho1 else rho2) <$> zip fx fy.
Proof.
  exists (final_fluid base_default), (final_solid base_default),
    (pick grid_mask mesh.1), (pick grid_mask mesh.2),
    (compact grid_mask mesh.1), (compact grid_mask mesh.2), fluid_rho.
  split; [apply final_sets_false |].
  do 4 (split; [by apply holds_table |]).
  do 2 (split; [apply length_pick_selected;
                by rewrite ?mesh_lengths, length_grid_mask |]).
  do 2 (split; [apply length_compact_kept;
                by rewrite ?mesh_lengths, length_grid_mask |]).
  split; [apply zip_pick_grid |]. split; [apply zip_compact_grid |].
  split; [by apply holds_table |]. done.
Qed.

(** C3. In the two sets [create_particles(empty=False)] returns, the mass
    of each fluid particle is the cell volume [dx*dx] times its density,
    every smoothing length, fluid and solid, is [hdx*dx], and the reference
    density [rho0] of each fluid particle is its density. *)
Theorem create_particles_mass_and_smoothing_length
    {F : Type} `{!FloatOps F} (base_default : string → F) :
  ∃ fluid solid rho,
    final_sets base_default false = Some (fluid, solid)
    ∧ holds fluid "rho" rho
    ∧ length rho = num_particles fluid
    ∧ holds fluid "m" (fmul (fmul dx dx) <$> rho)
    ∧ holds fluid "h" (replicate (num_particles fluid) (fmul hdx dx))
    ∧ holds solid "h" (replicate (num_particles solid) (fmul hdx dx))
    ∧ holds fluid "rho0" rho.
Proof.
  exists (final_fluid base_default), (final_solid base_default), fluid_rho.
  split; [apply final_sets_false |].
  split; [by apply holds_table |]. split; [apply length_fluid_rho |].
  repeat split; by apply holds_table.
Qed.

(** C4. The equation list has exactly three groups, in this order: the
    density summation on the fluid with the fluid and the solid as sources;
    the solid wall on the solid with the fluid as source, with the reference
    pressure [p0] and the gravity [gy]; the body force [fy = gy] and the
    momentum equation on the fluid, the latter with the fluid and the solid
    as sources. *)
Theorem equations_three_groups_in_order {F : Type} `{!FloatOps F} :
  length (equations (F:=F)) = 3
  ∧ (λ g, (λ e, (dest_of e, sources_of e)) <$> group_equations g)
      <$> equations (F:=F)
    = [ [("fluid", Some ["fluid"; "solid"])];
        [("solid", Some ["fluid"])];
        [("fluid", None); ("fluid", Some ["fluid"; "solid"])] ]
  ∧ ∃ d1 s1 d2 s2 d3 s3 d4 s4,
      equations (F:=F)
      = [ mkGroup [TransportVelocitySummationDensity d1 s1 c0];
          mkGroup [TransportVelocitySolidWall d2 s2 (fpow c0 2) gy];
          mkGroup [BodyForce d3 s3 gy;
                   TransportVelocityMomentumEquation d4 s4 nu (fpow c0 2)] ].
Proof.
  split; [reflexivity |]. split; [reflexivity |].
  by eexists _, _, _, _, _, _, _, _.
Qed.

(** C8. [add_property] back-fills the new array with zero for every
    particle the set already holds; after [create_particles(empty=False)]
    the properties that are added and never assigned are zero for every
    particle: [uhat], [vhat], [au], [av], [aw], [auhat], [avhat] of the
    fluid and [uhat], [vhat], [wij], [u0], [v0] of the solid. *)
Theorem added_properties_are_zero
    {F : Type} `{!FloatOps F} (base_default : string → F) :
  (∀ (ps ps' : ParticleSet F) (p : string),
     add ps p = inr ps' →
     properties ps !! p = None
     ∧ holds ps' p (replicate (num_particles ps) (lit 0))
     ∧ num_particles ps' = num_particles ps
     ∧ ∀ q, q ≠ p → properties ps' !! q = properties ps !! q)
  ∧ ∃ fluid solid,
      final_sets base_default false = Some (fluid, solid)
      ∧ Forall (λ p, holds fluid p (replicate (num_particles fluid) (lit 0)))
          ["uhat"; "vhat"; "au"; "av"; "aw"; "auhat"; "avhat"]
      ∧ Forall (λ p, holds solid p (replicate (num_particles solid) (lit 0)))
          ["uhat"; "vhat"; "wij"; "u0"; "v0"].
Proof.
  split.
  - intros ps ps' p. unfold add, holds.
    destruct (properties ps !! p) eqn:Hp; [done |]. intros [= <-]. simpl.
    split; [done |]. split; [apply lookup_insert_eq |]. split; [done |].
    intros q Hq. by apply lookup_insert_ne.
  - exists (final_fluid base_default), (final_solid base_default).
    split; [apply final_sets_false |].
    split; repeat constructor; by apply holds_table.
Qed.

(** The witness of C8: [uhat] added to a set of three particles. *)
Lemma added_properties_are_zero_witness :
  properties Sample.three !! "uhat" = None
  ∧ holds (with_property Sample.three "uhat" (replicate 3 (lit 0))) "uhat"
      (replicate 3 (lit 0))
  ∧ num_particles (with_property Sample.three "uhat" (replicate 3 (lit 0)))
    = 3
  ∧ ∀ q, q ≠ "uhat" →
      properties (with_property Sample.three "uhat" (replicate 3 (lit 0))) !! q
      = properties Sample.three !! q.
Proof.
  exact (proj1 (added_properties_are_zero Exact.default_zero)
           Sample.three
           (with_property Sample.three "uhat" (replicate 3 (lit 0)))
           "uhat" eq_refl).
Defined.

(** C9. The reference pressure of a fluid particle is the squared sound
    speed divided by the density of that particle, not the constant [p0]:
    [fluid.p0[i] = c0**2 / fluid.rho[i]], and [fluid.rho0[i] = fluid.rho[i]];
    where dividing and multiplying by a non-zero density cancel, this is
    [fluid.p0[i] * fluid.rho0[i] = c0**2]. *)
Theorem reference_pressure_scales_with_density
    {F : Type} `{!FloatOps F} (base_default : string → F) :
  ∃ fluid solid rho,
    final_sets base_default false = Some (fluid, solid)
    ∧ holds fluid "rho" rho
    ∧ holds fluid "rho0" rho
    ∧ holds fluid "p0" (fdiv (fpow c0 2) <$> rho)
    ∧ ((∀ a b : F, b ≠ lit 0 → fmul (fdiv a b) b = a) →
       rho1 ≠ lit 0 → rho2 ≠ lit 0 →
       zip_with fmul (fdiv (fpow c0 2) <$> rho) rho
       = replicate (num_particles fluid) (fpow c0 2)).
Proof.
  exists (final_fluid base_default), (final_solid base_default), fluid_rho.
  split; [apply final_sets_false |].
  do 3 (split; [by apply holds_table |]).
  intros Hcancel H1 H2. unfold final_fluid. simpl.
  rewrite <- length_fluid_rho. unfold fluid_rho.
  induction (zip _ _) as [| p l IH]; [done |].
  rewrite !fmap_cons. simpl. f_equal; [| apply IH].
  apply Hcancel. unfold phase. by destruct (above_interface _ _).
Qed.

(** ** Extraction and removal *)

Section Extraction.
Context {F : Type} `{!FloatOps F}.
Variable base_default : string → F.

Lemma extract_remove_counts (ps : ParticleSet F) (idx : list nat) :
  NoDup idx → (∀ i, i ∈ idx → i < num_particles ps) →
  ∃ ex rem,
    extract ps idx = inr ex ∧ remove ps idx = inr rem
    ∧ num_particles ex + num_particles rem = num_particles ps
    ∧ ∀ p arr, properties ps !! p = Some arr →
        length arr = num_particles ps →
        ∃ a1 a2, properties ex !! p = Some a1 ∧ properties rem !! p = Some a2
                 ∧ length a1 + length a2 = length arr.
Proof.
  intros Hnd Hin. unfold extract, remove.
  rewrite (proj2 (in_range_spec _ _) Hin). eexists _, _.
  split; [done |]. split; [done |]. simpl.
  split; [by apply kept_mark |].
  intros p arr Hp Hlen. eexists _, _. rewrite !lookup_fmap, Hp. simpl.
  split; [done |]. split; [done |].
  rewrite length_rows_at
    by (apply in_range_spec; intros i Hi; rewrite Hlen; by apply Hin).
  rewrite length_compact by (by rewrite length_mark).
  rewrite Hlen. by apply kept_mark.
Qed.

Lemma pick_compact_perm {A} (mask : list bool) (arr : list A) :
  length mask = length arr → pick mask arr ++ compact mask arr ≡ₚ arr.
Proof.
  revert arr. induction mask as [| b mask IH]; intros [| a arr] Hlen;
    try done. simpl in *. destruct b.
  - simpl. constructor. apply IH. lia.
  - rewrite <- Permutation_middle. constructor. apply IH. lia.
Qed.

Lemma filter_bool_perm {A} (f : A → bool) (l : list A) :
  filter (λ a, f a = true) l ++ filter (λ a, f a = false) l ≡ₚ l.
Proof.
  induction l as [| a l IH]; [done |]. destruct (f a) eqn:Hfa.
  - rewrite filter_cons_True, filter_cons_False by (by rewrite Hfa).
    simpl. by constructor.
  - rewrite filter_cons_False, filter_cons_True by (by rewrite Hfa).
    rewrite <- Permutation_middle. by constructor.
Qed.

Lemma exec_extract_frame (h : Heap F) r idx (r' : nat) h' :
  exec base_default (extract_particles r idx) h = inr (r', h') →
  ∃ src new,
    h !! r = Some src ∧ r' = length h ∧ h' = h ++ [new]
    ∧ h' !! r = Some src
    ∧ num_particles new = length idx
    ∧ properties new = rows_at idx <$> properties src.
Proof.
  simpl. unfold deref. destruct (h !! r) as [src |] eqn:Hr; [| done]. simpl.
  unfold extract. destruct (in_range _ idx); [| done]. simpl.
  intros [= <- <-]. eexists _, _. split; [done |]. split; [done |].
  split; [done |]. split; [| done].
  rewrite lookup_app_l; [done | by eapply lookup_lt_Some].
Qed.

Lemma trace_final {A} (m : Prog F A) (h : Heap F) (a : A) h' :
  run base_default m h = inr (a, h') →
  foldl (λ _ st, step_post st) h (trace base_default m h) = h'.
Proof.
  revert h. induction m as [a' | e | R c k IH]; intros h; simpl.
  - by intros [= _ <-].
  - done.
  - destruct (exec base_default c h) as [e | [res h'']]; [done |]. simpl.
    apply IH.
Qed.

End Extraction.

(** C5. Extracting the rows at a valid index set (in range, without
    repeats) and removing the same rows conserves the particle count, and
    the length of every property array.  The offsets [create_particles]
    extracts are such a set, and every candidate grid point ends up in
    exactly one of the two sets. *)
Theorem extract_then_remove_conserves_count
    {F : Type} `{!FloatOps F} (base_default : string → F) :
  (∀ (ps : ParticleSet F) (idx : list nat),
     NoDup idx → (∀ i, i ∈ idx → i < num_particles ps) →
     ∃ ex rem,
       extract ps idx = inr ex ∧ remove ps idx = inr rem
       ∧ num_particles ex + num_particles rem = num_particles ps
       ∧ ∀ p arr, properties ps !! p = Some arr →
           length arr = num_particles ps →
           ∃ a1 a2, properties ex !! p = Some a1
                    ∧ properties rem !! p = Some a2
                    ∧ length a1 + length a2 = length arr)
  ∧ NoDup (inside_offsets (mesh (F:=F)).1 (mesh (F:=F)).2)
  ∧ Forall (λ i, i < length (grid_points (F:=F)))
      (inside_offsets (mesh (F:=F)).1 (mesh (F:=F)).2)
  ∧ ∃ fluid solid,
      final_sets base_default false = Some (fluid, solid)
      ∧ points fluid ++ points solid ≡ₚ grid_points
      ∧ num_particles fluid + num_particles solid = length (grid_points (F:=F)).
Proof.
  split; [apply extract_remove_counts |].
  split; [apply selected_NoDup |].
  split.
  { apply Forall_forall. intros i Hi%selected_lt.
    change (strictly_inside <$> zip mesh.1 mesh.2) with (grid_mask (F:=F)) in Hi.
    unfold grid_mask in Hi. rewrite length_fmap in Hi. lia. }
  exists (final_fluid base_default), (final_solid base_default).
  split; [apply final_sets_false |].
  rewrite points_final_fluid, points_final_solid.
  split; [apply filter_bool_perm |].
  change (n_fluid (F:=F) + n_solid (F:=F) = length (grid_points (F:=F))).
  rewrite n_fluid_points, n_solid_points, <- length_app.
  by rewrite filter_bool_perm.
Qed.

(** The witness of C5: rows 2 and 0 of a set of three particles. *)
Lemma extract_then_remove_conserves_count_witness :
  ∃ ex rem,
    extract Sample.three [2; 0] = inr ex ∧ remove Sample.three [2; 0] = inr rem
    ∧ num_particles ex + num_particles rem = 3
    ∧ ∀ p arr, properties Sample.three !! p = Some arr →
        length arr = 3 →
        ∃ a1 a2, properties ex !! p = Some a1 ∧ properties rem !! p = Some a2
                 ∧ length a1 + length a2 = length arr.
Proof.
  apply (proj1 (extract_then_remove_conserves_count Exact.default_zero)
           Sample.three [2; 0]).
  - constructor; [| apply NoDup_singleton].
    intros Hi. apply elem_of_cons in Hi as [Hi | Hi]; [lia |].
    by apply not_elem_of_nil in Hi.
  - intros i Hi. simpl.
    apply elem_of_cons in Hi as [-> | Hi]; [lia |].
    apply elem_of_cons in Hi as [-> | Hi]; [lia |]. by apply not_elem_of_nil in Hi.
Defined.

(** C6. [extract_particles] returns a new set holding the rows at the
    given indices and leaves the source as it was: the heap grows by the new
    set and nothing else changes.  In [create_particles] the base set is the
    same before and after line 62, and it is [remove_particles] on line 63
    that compacts it. *)
Theorem extract_leaves_the_source_unchanged
    {F : Type} `{!FloatOps F} (base_default : string → F) :
  (∀ (h : list (ParticleSet F)) (r : nat) (idx : list nat) (r' : nat) h',
     exec base_default (extract_particles r idx) h = inr (r', h') →
     ∃ src new,
       h !! r = Some src ∧ r' = length h ∧ h' = h ++ [new]
       ∧ h' !! r = Some src
       ∧ num_particles new = length idx
       ∧ properties new = rows_at idx <$> properties src)
  ∧ ∃ st2 st4,
      steps base_default false !! 1 = Some st2
      ∧ step_call st2 = pack (extract_particles 0 (inside_offsets mesh.1 mesh.2))
      ∧ step_pre st2 !! 0 = Some (base_set base_default)
      ∧ step_post st2 !! 0 = Some (base_set base_default)
      ∧ step_post st2 !! 1 = Some (extracted base_default)
      ∧ steps base_default false !! 3 = Some st4
      ∧ step_call st4 = pack (remove_particles 0 (inside_offsets mesh.1 mesh.2))
      ∧ step_pre st4 !! 0 = Some (base_set base_default)
      ∧ step_post st4 !! 0 = Some (split_solid base_default).
Proof.
  split; [apply exec_extract_frame |].
  rewrite steps_false, trace_create_sets_false. eexists _, _.
  repeat split; reflexivity.
Qed.

(** The witness of C6: rows 2 and 0 extracted from a set of three. *)
Lemma extract_leaves_the_source_unchanged_witness :
  ∃ src new,
    [Sample.three] !! 0 = Some src ∧ 1 = length [Sample.three]
    ∧ [Sample.three; Sample.two_of_three] = [Sample.three] ++ [new]
    ∧ [Sample.three; Sample.two_of_three] !! 0 = Some src
    ∧ num_particles new = length [2; 0]
    ∧ properties new = rows_at [2; 0] <$> properties src.
Proof.
  apply (proj1 (extract_leaves_the_source_unchanged Exact.default_zero)
           [Sample.three] 0 [2; 0] 1 [Sample.three; Sample.two_of_three]).
  apply (exec_extract Exact.default_zero 0 [2; 0] [Sample.three] "solid" 3 _
           eq_refl eq_refl).
Defined.

Lemma table_consistent {F} nm n (tbl : list (string * list F)) :
  Forall (λ e, length e.2 = n) tbl → consistent (table nm n tbl).
Proof.
  intros Hall. unfold consistent, table. simpl.
  induction Hall as [| [p arr] tbl Harr Hall IH]; simpl.
  - apply map_Forall_empty.
  - by apply map_Forall_insert_2.
Qed.

(** C7. At every point during and after [create_particles], in both
    branches, every property array of a set has the length of that set's
    particle count: every call of the service preserves this, so every
    step of the run starts and ends in a heap of consistent sets, and the
    sets returned are consistent. *)
Theorem arrays_keep_the_particle_count
    {F : Type} `{!FloatOps F} (base_default : string → F) (empty : bool) :
  (∀ R (c : Call F R) (h : list (ParticleSet F)) (res : R) h',
     heap_consistent h → exec base_default c h = inr (res, h') →
     heap_consistent h')
  ∧ Forall (λ st, heap_consistent (step_pre st)
                  ∧ heap_consistent (step_post st))
      (steps base_default empty)
  ∧ ∃ refs h' fluid solid,
      run base_default (create_particles empty) [] = inr (refs, h')
      ∧ foldl (λ _ st, step_post st) [] (steps base_default empty) = h'
      ∧ heap_consistent h'
      ∧ final_sets base_default empty = Some (fluid, solid)
      ∧ consistent fluid ∧ consistent solid.
Proof.
  split; [intros R; apply exec_consistent |].
  assert (Hnil : heap_consistent (F:=F) []) by constructor.
  split; [by apply trace_consistent |].
  assert (Hrun : ∃ refs fluid solid,
            run base_default (create_particles empty) []
            = inr (refs, [fluid; solid])).
  { destruct empty; eexists _, _, _.
    - apply run_create_particles_true.
    - apply run_create_particles_false. }
  destruct Hrun as (refs & s0 & s1 & Hrun).
  pose proof (run_consistent _ _ _ _ _ Hnil Hrun) as Hh.
  apply Forall_cons in Hh as [H0 Hh]. apply Forall_cons in Hh as [H1 _].
  destruct empty.
  - eexists _, _, _, _. split; [exact Hrun |].
    split; [by apply trace_final with (a := refs) |].
    split; [by repeat constructor |].
    rewrite run_create_particles_true in Hrun. injection Hrun as _ <- <-.
    split; [apply final_sets_true | done].
  - eexists _, _, _, _. split; [exact Hrun |].
    split; [by apply trace_final with (a := refs) |].
    split; [by repeat constructor |].
    rewrite run_create_particles_false in Hrun. injection Hrun as _ <- <-.
    split; [apply final_sets_false | done].
Qed.

(** The witness of C7: removing rows 2 and 0 from a set of three. *)
Lemma arrays_keep_the_particle_count_witness :
  heap_consistent [Sample.one_of_three].
Proof.
  apply (proj1 (arrays_keep_the_particle_count Exact.default_zero true) unit
           (remove_particles 0 [2; 0]) [Sample.three] tt [Sample.one_of_three]).
  - repeat constructor. apply table_consistent. by repeat constructor.
  - apply (exec_remove Exact.default_zero 0 [2; 0] [Sample.three] "solid" 3 _
             eq_refl eq_refl).
Defined.

(** ** Sums *)

Section Sums.
Context {F : Type} `{!FloatOps F}.
Hypothesis fadd_assoc : ∀ a b c : F, fadd a (fadd b c) = fadd (fadd a b) c.
Hypothesis fadd_comm : ∀ a b : F, fadd a b = fadd b a.
Hypothesis fadd_zero : ∀ a : F, fadd (lit 0) a = a.

Lemma foldl_fadd_shift (l : list F) (a b : F) :
  foldl fadd (fadd a b) l = fadd a (foldl fadd b l).
Proof.
  revert b. induction l as [| c l IH]; intros b; [done |]. simpl.
  by rewrite <- fadd_assoc, IH.
Qed.

Lemma fsum_cons (a : F) (l : list F) : fsum (a :: l) = fadd a (fsum l).
Proof.
  unfold fsum. simpl. rewrite fadd_comm. apply foldl_fadd_shift.
Qed.

Lemma fsum_app (l k : list F) : fsum (l ++ k) = fadd (fsum l) (fsum k).
Proof.
  induction l as [| a l IH]; simpl.
  - by rewrite fadd_zero.
  - by rewrite !fsum_cons, IH, fadd_assoc.
Qed.

Lemma fsum_perm (l k : list F) : l ≡ₚ k → fsum l = fsum k.
Proof.
  induction 1 as [| a l k _ IH | a b l | l k m _ IH1 _ IH2].
  - done.
  - by rewrite !fsum_cons, IH.
  - rewrite !fsum_cons, !fadd_assoc. f_equal. apply fadd_comm.
  - by rewrite IH1.
Qed.

End Sums.

(** The exact instance is a commutative monoid under addition, and its
    division cancels. *)
Lemma Qc_of_Qeq (a b : Qc) : Qeq (this a) (this b) → a = b.
Proof. apply Qc_is_canon. Qed.

Lemma Exact_fadd_assoc (a b c : Qc) : fadd a (fadd b c) = fadd (fadd a b) c.
Proof. apply Qcplus_assoc. Qed.

Lemma Exact_fadd_comm (a b : Qc) : fadd a b = fadd b a.
Proof. apply Qcplus_comm. Qed.

Lemma Exact_fadd_zero (a : Qc) : fadd (lit 0) a = a.
Proof. apply Qcplus_0_l. Qed.

Lemma Exact_fdiv_cancel (a b : Qc) : b ≠ lit 0 → fmul (fdiv a b) b = a.
Proof.
  intros Hb. simpl. rewrite Qcmult_comm. by apply Qcmult_div_r.
Qed.

Lemma Exact_fsum_replicate_zero (n : nat) :
  fsum (replicate n (Q2Qc 0)) = Q2Qc 0.
Proof.
  unfold fsum. induction n as [| n IH]; [done |].
  change (foldl fadd (fadd (lit 0) (Q2Qc 0)) (replicate n (Q2Qc 0)) = Q2Qc 0).
  by rewrite Exact_fadd_zero.
Qed.

(** The fluid mass the script assigns, summed: 2500 particles of each
    phase, [0.0004 * (2500 * 1.8 + 2500 * 1.0) = 2.8]. *)
Lemma Exact_fluid_mass :
  fsum (fmul (fmul dx dx) <$> fluid_rho (F:=Qc)) = Q2Qc 2.8.
Proof. apply Qc_of_Qeq. vm_compute. reflexivity. Qed.

Lemma Exact_counts : n_fluid (F:=Qc) = 5000 ∧ n_solid (F:=Qc) = 1771.
Proof. split; vm_compute; reflexivity. Qed.

(** C2, as stated, fails: when [create_particles(empty=False)] returns, the
    fluid masses have been reassigned to [dx*dx*rho] (line 115) and no longer
    add up with the solid masses to the total of the base set.  On the exact
    instance the fluid masses sum to 2.8; with default mass 0 the base set
    sums to 0, with default mass 1 it sums to 6771 against 1771 left in the
    solid. *)
Lemma total_mass_differs_after_create_particles :
  (∃ fluid solid fm sm om,
     final_sets Exact.default_zero false = Some (fluid, solid)
     ∧ holds fluid "m" fm ∧ holds solid "m" sm
     ∧ holds (base_set Exact.default_zero) "m" om
     ∧ fsum fm = Q2Qc 2.8 ∧ fsum sm = Q2Qc 0 ∧ fsum om = Q2Qc 0
     ∧ fadd (fsum fm) (fsum sm) ≠ fsum om)
  ∧ (∃ fluid solid fm sm om,
       final_sets Exact.default_one false = Some (fluid, solid)
       ∧ holds fluid "m" fm ∧ holds solid "m" sm
       ∧ holds (base_set Exact.default_one) "m" om
       ∧ fsum fm = Q2Qc 2.8 ∧ fsum sm = Q2Qc 1771 ∧ fsum om = Q2Qc 6771
       ∧ fadd (fsum fm) (fsum sm) ≠ fsum om).
Proof.
  split.
  - exists (final_fluid Exact.default_zero), (final_solid Exact.default_zero),
      (fmul (fmul dx dx) <$> fluid_rho),
      (compact grid_mask
         (replicate (length (mesh (F:=Qc)).1) (Exact.default_zero "m"))),
      (replicate (length (mesh (F:=Qc)).1) (Exact.default_zero "m")).
    split; [apply final_sets_false |].
    do 3 (split; [by apply holds_table |]).
    split; [apply Exact_fluid_mass |].
    assert (Hs : fsum (compact grid_mask
                         (replicate (length (mesh (F:=Qc)).1) (Exact.default_zero "m")))
                 = Q2Qc 0).
    { rewrite compact_replicate by apply length_grid_mask.
      apply Exact_fsum_replicate_zero. }
    assert (Ho : fsum (replicate (length (mesh (F:=Qc)).1) (Exact.default_zero "m"))
                 = Q2Qc 0) by apply Exact_fsum_replicate_zero.
    split; [exact Hs |]. split; [exact Ho |].
    rewrite Exact_fluid_mass, Hs, Ho. intros Heq.
    apply (f_equal this) in Heq. vm_compute in Heq. discriminate.
  - exists (final_fluid Exact.default_one), (final_solid Exact.default_one),
      (fmul (fmul dx dx) <$> fluid_rho),
      (compact grid_mask
         (replicate (length (mesh (F:=Qc)).1) (Exact.default_one "m"))),
      (replicate (length (mesh (F:=Qc)).1) (Exact.default_one "m")).
    split; [apply final_sets_false |].
    do 3 (split; [by apply holds_table |]).
    split; [apply Exact_fluid_mass |].
    assert (Hs : fsum (compact grid_mask
                         (replicate (length (mesh (F:=Qc)).1) (Exact.default_one "m")))
                 = Q2Qc 1771).
    { apply Qc_of_Qeq. vm_compute. reflexivity. }
    assert (Ho : fsum (replicate (length (mesh (F:=Qc)).1) (Exact.default_one "m"))
                 = Q2Qc 6771).
    { apply Qc_of_Qeq. vm_compute. reflexivity. }
    split; [exact Hs |]. split; [exact Ho |].
    rewrite Exact_fluid_mass, Hs, Ho. intros Heq.
    apply (f_equal this) in Heq. vm_compute in Heq. discriminate.
Qed.

(** C2, amended.  Mass is conserved across the extraction itself: right
    after [remove_particles] on line 63, the masses of the fluid and of the
    solid are together the masses of the base set, rearranged, so that
    wherever addition is associative and commutative with zero as its
    identity [sum(fluid.m) + sum(solid.m) = sum(original.m)].  When
    [create_particles] returns, the fluid masses are [dx*dx*rho] and the
    solid masses are what the extraction left. *)
Theorem mass_is_conserved_across_extraction
    {F : Type} `{!FloatOps F} (base_default : string → F) :
  ∃ st fm sm om,
    steps base_default false !! 3 = Some st
    ∧ step_call st = pack (remove_particles 0 (inside_offsets mesh.1 mesh.2))
    ∧ step_pre st = [base_set base_default; split_fluid base_default]
    ∧ step_post st = [split_solid base_default; split_fluid base_default]
    ∧ holds (base_set base_default) "m" om
    ∧ holds (split_fluid base_default) "m" fm
    ∧ holds (split_solid base_default) "m" sm
    ∧ fm ++ sm ≡ₚ om
    ∧ ((∀ a b c : F, fadd a (fadd b c) = fadd (fadd a b) c) →
       (∀ a b : F, fadd a b = fadd b a) →
       (∀ a : F, fadd (lit 0) a = a) →
       fadd (fsum fm) (fsum sm) = fsum om)
    ∧ ∃ fluid solid rho,
        final_sets base_default false = Some (fluid, solid)
        ∧ holds fluid "rho" rho
        ∧ holds fluid "m" (fmul (fmul dx dx) <$> rho)
        ∧ holds solid "m" sm.
Proof.
  rewrite steps_false, trace_create_sets_false. eexists _, _, _, _.
  split; [reflexivity |]. do 3 (split; [reflexivity |]).
  do 3 (split; [by apply holds_table |]).
  assert (Hperm : pick grid_mask
                    (replicate (length (mesh (F:=F)).1) (base_default "m"))
                  ++ compact grid_mask
                       (replicate (length (mesh (F:=F)).1) (base_default "m"))
                  ≡ₚ replicate (length (mesh (F:=F)).1) (base_default "m")).
  { apply pick_compact_perm. by rewrite length_replicate, length_grid_mask. }
  split; [exact Hperm |]. split.
  - intros Hassoc Hcomm Hzero.
    rewrite <- (fsum_app Hassoc Hcomm Hzero).
    by apply (fsum_perm Hassoc Hcomm).
  - exists (final_fluid base_default), (final_solid base_default), fluid_rho.
    split; [apply final_sets_false |]. repeat split; by apply holds_table.
Qed.

(** The witness of C2: the exact instance, with default mass 0. *)
Lemma mass_is_conserved_across_extraction_witness :
  ∃ fm sm om,
    holds (base_set Exact.default_zero) "m" om
    ∧ holds (split_fluid Exact.default_zero) "m" fm
    ∧ holds (split_solid Exact.default_zero) "m" sm
    ∧ fadd (fsum fm) (fsum sm) = fsum om.
Proof.
  destruct (mass_is_conserved_across_extraction Exact.default_zero)
    as (st & fm & sm & om & _ & _ & _ & _ & Ho & Hf & Hs & _ & Hsum & _).
  exists fm, sm, om. do 3 (split; [assumption |]).
  apply Hsum.
  - exact Exact_fadd_assoc.
  - exact Exact_fadd_comm.
  - exact Exact_fadd_zero.
Defined.

(** The witness of C9: on the exact instance division cancels, and the two
    densities are not zero. *)
Lemma reference_pressure_scales_with_density_witness :
  ∃ fluid solid rho,
    final_sets Exact.default_zero false = Some (fluid, solid)
    ∧ holds fluid "rho0" rho
    ∧ holds fluid "p0" (fdiv (fpow c0 2) <$> rho)
    ∧ zip_with fmul (fdiv (fpow c0 2) <$> rho) rho
      = replicate (num_particles fluid) (fpow c0 2).
Proof.
  destruct (reference_pressure_scales_with_density Exact.default_zero)
    as (fluid & solid & rho & Hfinal & _ & Hrho0 & Hp0 & Hprod).
  exists fluid, solid, rho. do 3 (split; [assumption |]).
  apply Hprod.
  - exact Exact_fdiv_cancel.
  - intros Heq. apply (f_equal this) in Heq. vm_compute in Heq. discriminate.
  - intros Heq. apply (f_equal this) in Heq. vm_compute in Heq. discriminate.
Defined.

(** C10, as stated, fails: with [empty=True] the assignments
    [fluid.rho0[:] = fluid.rho[:]] (line 98) and
    [fluid.p0[:] = c0**2/fluid.rho] (line 101) are performed; they are the
    16th and 19th call of the run, on arrays without entries. *)
Lemma empty_run_assigns_reference_fields :
  (∃ h, run Exact.default_zero (create_particles true) [] = inr ((0, 1), h))
  ∧ assignments (steps Exact.default_zero true) = [(0, "rho0"); (0, "p0")]
  ∧ step_call <$> steps Exact.default_zero true !! 15
    = Some (pack (set_slice 0 "rho0" []))
  ∧ step_call <$> steps Exact.default_zero true !! 18
    = Some (pack (set_slice 0 "p0" [])).
Proof.
  split; [eexists; apply run_create_particles_true |].
  split; [apply assignments_true |]. split; vm_compute; reflexivity.
Qed.

(** C10, amended.  [create_particles(empty=True)] returns a fluid and a
    solid without particles, with the same properties as in the non-empty
    case, the added ones ([V], [uhat], [vhat], [auhat], [avhat], [au],
    [av], [aw], [rho0], [p0] on the fluid; [V], [uhat], [vhat], [wij], [u0],
    [v0] on the solid) without entries.  The only assignments it performs
    are those of [rho0] and [p0], which run in both branches; the phase
    densities and [m], [V], [h] are assigned only when [empty] is false.
    References are numbered in the order of creation: the fluid is 0 and the
    solid 1 in the empty branch, the solid 0 and the fluid 1 otherwise. *)
Theorem create_particles_empty
    {F : Type} `{!FloatOps F} (base_default : string → F) :
  ∃ fluid solid,
    final_sets base_default true = Some (fluid, solid)
    ∧ num_particles fluid = 0 ∧ num_particles solid = 0
    ∧ Forall (λ p, holds fluid p [])
        ["V"; "uhat"; "vhat"; "auhat"; "avhat"; "au"; "av"; "aw";
         "rho0"; "p0"]
    ∧ Forall (λ p, holds solid p [])
        ["V"; "uhat"; "vhat"; "wij"; "u0"; "v0"]
    ∧ (∃ fluid' solid',
         final_sets base_default false = Some (fluid', solid')
         ∧ dom (properties fluid) = dom (properties fluid')
         ∧ dom (properties solid) = dom (properties solid'))
    ∧ (∃ h, run base_default (create_particles true) [] = inr ((0, 1), h))
    ∧ additions (steps base_default true)
      = [(0, "V"); (1, "V"); (0, "uhat"); (0, "vhat"); (1, "uhat");
         (1, "vhat"); (0, "auhat"); (0, "avhat"); (0, "au"); (0, "av");
         (0, "aw"); (0, "rho0"); (0, "p0"); (1, "wij"); (1, "u0"); (1, "v0")]
    ∧ assignments (steps base_default true) = [(0, "rho0"); (0, "p0")]
    ∧ (∃ h, run base_default (create_particles false) [] = inr ((1, 0), h))
    ∧ additions (steps base_default false)
      = [(1, "V"); (0, "V"); (1, "uhat"); (1, "vhat"); (0, "uhat");
         (0, "vhat"); (1, "auhat"); (1, "avhat"); (1, "au"); (1, "av");
         (1, "aw"); (1, "rho0"); (1, "p0"); (0, "wij"); (0, "u0"); (0, "v0")]
    ∧ assignments (steps base_default false)
      = replicate n_fluid (1, "rho")
        ++ [(1, "rho0"); (1, "p0"); (1, "m"); (1, "V"); (0, "V");
            (1, "h"); (0, "h")].
Proof.
  exists (empty_fluid base_default), (empty_solid base_default).
  split; [apply final_sets_true |]. do 2 (split; [done |]).
  split; [repeat constructor; by apply holds_table |].
  split; [repeat constructor; by apply holds_table |].
  split.
  { exists (final_fluid base_default), (final_solid base_default).
    split; [apply final_sets_false |].
    split; vm_compute; reflexivity. }
  split; [eexists; apply run_create_particles_true |].
  split; [apply additions_true |].
  split; [apply assignments_true |].
  split; [eexists; apply run_create_particles_false |].
  split; [apply additions_false |].
  apply assignments_false.
Qed.

(** ** The constants of the script, on the exact instance *)

Lemma Exact_constants :
  dx (F:=Qc) = Q2Qc 0.02 ∧ ghost_extent (F:=Qc) = Q2Qc 0.1
  ∧ Umax (F:=Qc) = Q2Qc 2 ∧ c0 (F:=Qc) = Q2Qc 20 ∧ p0 (F:=Qc) = Q2Qc 400
  ∧ length (_x (F:=Qc)) = 61 ∧ length (_y (F:=Qc)) = 111
  ∧ length (grid_points (F:=Qc)) = 6771.
Proof.
  repeat split; try (apply Qc_of_Qeq); vm_compute; reflexivity.
Qed.

(** The reference pressure of the heavy phase is below that of the light
    phase, which is the constant [p0]. *)
Lemma Exact_reference_pressures :
  fdiv (fpow c0 2) (rho1 (F:=Qc)) = Q2Qc (2000 # 9)
  ∧ fdiv (fpow c0 2) (rho2 (F:=Qc)) = p0
  ∧ flt (fdiv (fpow c0 2) (rho1 (F:=Qc))) (fdiv (fpow c0 2) (rho2 (F:=Qc)))
    = true.
Proof.
  repeat split; try (apply Qc_of_Qeq); vm_compute; reflexivity.
Qed.

(** * Further properties of the script *)

(** ** The first loop on arrays of any length *)

Section FirstLoop.
Context {F : Type} `{!FloatOps F}.
Variable base_default : string → F.

Lemma sort_out_body_skip (x y : list F) i acc xi :
  x !! i = Some xi → x_in_range xi = false →
  sort_out_body x y i acc = Ret acc.
Proof.
  intros Hx Hout. unfold sort_out_body, and_then, index, x_in_range in *.
  rewrite Hx. simpl. destruct (fgt xi (lit 0.0)); simpl in *; [| done].
  by rewrite Hout.
Qed.

Lemma sort_out_body_raise (x y : list F) i acc xi :
  x !! i = Some xi → x_in_range xi = true → y !! i = None →
  sort_out_body x y i acc = Raise IndexOutOfRangeError.
Proof.
  intros Hx Hin Hy. unfold sort_out_body, and_then, index, x_in_range in *.
  rewrite Hx, Hy. simpl. destruct (fgt xi (lit 0.0)); simpl in *; [| done].
  by rewrite Hin.
Qed.

Lemma sort_out_loop_any (x y : list F) :
  ∀ m j acc, j + m = length x →
  for_fold (seq j m) acc (sort_out_body x y)
  = if existsb x_in_range (drop (j `max` length y) x)
    then Raise IndexOutOfRangeError
    else Ret (acc ++ selected j (strictly_inside <$> drop j (zip x y))).
Proof.
  intros m. induction m as [| m IH]; intros j acc Hj.
  - rewrite (drop_ge x) by lia. rewrite (drop_ge (zip x y))
      by (rewrite length_zip_with; lia).
    simpl. by rewrite app_nil_r.
  - destruct (lookup_lt_is_Some_2 x j) as [xj Hxj]; [lia |].
    change (seq j (S m)) with (j :: seq (S j) m). cbn [for_fold].
    destruct (decide (j < length y)) as [Hlt | Hge].
    + destruct (lookup_lt_is_Some_2 y j) as [yj Hyj]; [lia |].
      assert (Hz : zip x y !! j = Some (xj, yj)).
      { rewrite lookup_zip_with, Hxj. simpl. by rewrite Hyj. }
      rewrite (drop_S _ _ _ Hz), fmap_cons. cbn [selected].
      rewrite (sort_out_body_eq x y j acc xj yj) by done.
      change (Ret ?a ≫= ?f) with (f a). cbv beta.
      rewrite IH by lia.
      replace (S j `max` length y) with (j `max` length y) by lia.
      destruct (existsb _ _); [done |].
      destruct (strictly_inside (xj, yj)); [| done]. by rewrite <- app_assoc.
    + assert (Hy : y !! j = None) by (apply lookup_ge_None; lia).
      replace (j `max` length y) with j by lia.
      rewrite (drop_S _ _ _ Hxj). cbn [existsb].
      rewrite (drop_ge (zip x y)) by (rewrite length_zip_with; lia).
      destruct (x_in_range xj) eqn:Hin.
      * by rewrite (sort_out_body_raise x y j acc xj).
      * rewrite (sort_out_body_skip x y j acc xj) by done.
        change (Ret ?a ≫= ?f) with (f a). cbv beta.
        rewrite IH by lia.
        replace (S j `max` length y) with (S j) by lia.
        rewrite (drop_ge (zip x y)) by (rewrite length_zip_with; lia).
        done.
Qed.

End FirstLoop.

Section Offsets.
Implicit Types (mask : list bool).

Lemma selected_sorted mask j : StronglySorted lt (selected j mask).
Proof.
  revert j. induction mask as [| b mask IH]; intros j; simpl.
  - constructor.
  - destruct b; [| apply IH]. constructor; [apply IH |].
    apply Forall_forall. intros i Hi%selected_lt. lia.
Qed.

Lemma elem_of_selected mask j i :
  i ∈ selected j mask ↔ j ≤ i ∧ mask !! (i - j) = Some true.
Proof.
  revert j. induction mask as [| b mask IH]; intros j; simpl.
  - split; [by intros ?%not_elem_of_nil | by intros [_ ?]].
  - assert (Hnext : i ∈ selected (S j) mask
                    ↔ j < i ∧ (b :: mask) !! (i - j) = Some true).
    { rewrite IH. split.
      - intros [Hle Hi]. split; [lia |].
        replace (i - j) with (S (i - S j)) by lia. done.
      - intros [Hlt Hi]. split; [lia |].
        replace (i - j) with (S (i - S j)) in Hi by lia. done. }
    destruct b.
    + rewrite elem_of_cons, Hnext. split.
      * intros [-> | [Hlt Hi]]; [by rewrite Nat.sub_diag | split; [lia | done]].
      * intros [Hle Hi]. destruct (decide (i = j)) as [-> | Hne]; [by left |].
        right. split; [lia | done].
    + rewrite Hnext. split.
      * intros [Hlt Hi]. split; [lia | done].
      * intros [Hle Hi]. destruct (decide (i = j)) as [-> | Hne].
        -- by rewrite Nat.sub_diag in Hi.
        -- split; [lia | done].
Qed.

End Offsets.

(** X1. The first loop (lines 50-54) on arrays [x] and [y] of any length
    makes no call on the particle arrays.  It raises IndexError exactly
    when some entry of [x] beyond the end of [y] lies in [(0, Lx)]: an [x]
    outside [(0, Lx)] never makes it read [y].  Otherwise it returns, in
    increasing order, the offsets whose point lies strictly inside the
    box. *)
Theorem first_loop_offsets_or_index_error
    {F : Type} `{!FloatOps F} (base_default : string → F)
    (x y : list F) (h : list (ParticleSet F)) :
  run base_default (sort_out x y) h
  = (if reads_beyond x y then inl IndexOutOfRangeError
     else inr (inside_offsets x y, h))
  ∧ trace base_default (sort_out x y) h = []
  ∧ StronglySorted lt (inside_offsets x y)
  ∧ ∀ i, i ∈ inside_offsets x y
         ↔ ∃ xi yi, x !! i = Some xi ∧ y !! i = Some yi
                    ∧ (fgt xi (lit 0.0) && flt xi Lx
                       && (fgt yi (lit 0.0) && flt yi Ly)) = true.
Proof.
  assert (Heq : sort_out x y
                = if reads_beyond x y then Raise IndexOutOfRangeError
                  else Ret (inside_offsets x y)).
  { unfold sort_out. by rewrite (sort_out_loop_any x y _ 0 []). }
  rewrite Heq. split; [by destruct (reads_beyond x y) |].
  split; [by destruct (reads_beyond x y) |].
  split; [apply selected_sorted |].
  intros i. unfold inside_offsets. rewrite elem_of_selected, Nat.sub_0_r.
  rewrite list_lookup_fmap, lookup_zip_with. split.
  - intros [_ Hi]. destruct (x !! i) as [xi |]; [| done].
    destruct (y !! i) as [yi |]; [| done].
    exists xi, yi. do 2 (split; [done |]).
    by injection Hi.
  - intros (xi & yi & -> & -> & Hin). split; [lia |].
    exact (f_equal Some Hin).
Qed.

(** ** The second loop on any set *)

Section SecondLoop.
Context {F : Type} `{!FloatOps F}.
Variable base_default : string → F.

Lemma run_sort_out_phases_any (h : list (ParticleSet F)) (r : nat)
    (ps : ParticleSet F) xs ys rs :
  h !! r = Some ps → consistent ps →
  holds ps "x" xs → holds ps "y" ys → holds ps "rho" rs →
  run base_default (sort_out_phases r) h
  = inr ((), <[r := with_property ps "rho" (phase <$> zip xs ys)]> h).
Proof.
  destruct ps as [nm n M]. unfold holds, with_property.
  cbn [name num_particles properties]. intros Hr Hps Hx Hy Hrho.
  pose proof (Hps _ _ Hx) as Hlx. pose proof (Hps _ _ Hy) as Hly.
  pose proof (Hps _ _ Hrho) as Hlr. simpl in Hlx, Hly, Hlr.
  unfold sort_out_phases.
  assert (Hcount : exec base_default (get_number_of_particles r) h
                   = inr (n, h)).
  { simpl. unfold deref. by rewrite Hr. }
  rewrite (run_step _ _ _ _ _ _ Hcount). cbv beta.
  rewrite (phases_loop base_default r nm n M xs ys Hx Hy Hlx Hly n 0 rs h);
    [done | lia | done |].
  by rewrite insert_id.
Qed.

End SecondLoop.

(** X2. The second loop (lines 66-71), run on any consistent set that has
    [x], [y] and [rho], overwrites every entry of [rho] with the density of
    the phase of its point, whatever [rho] held before; it changes no other
    property, neither the name nor the count, and no other set. *)
Theorem second_loop_overwrites_rho
    {F : Type} `{!FloatOps F} (base_default : string → F)
    (h : list (ParticleSet F)) (r : nat) (ps : ParticleSet F)
    (xs ys rs : list F) :
  h !! r = Some ps → consistent ps →
  holds ps "x" xs → holds ps "y" ys → holds ps "rho" rs →
  ∃ ps',
    run base_default (sort_out_phases r) h = inr ((), <[r := ps']> h)
    ∧ holds ps' "rho"
        ((λ p, if fgt p.2 (fsub (of_int 1)
                    (fmul (lit 0.15) (fsin (fmul (fmul (of_int 2) fpi) p.1))))
               then rho1 else rho2) <$> zip xs ys)
    ∧ name ps' = name ps ∧ num_particles ps' = num_particles ps
    ∧ consistent ps'
    ∧ ∀ p, p ≠ "rho" → properties ps' !! p = properties ps !! p.
Proof.
  intros Hr Hps Hx Hy Hrho.
  exists (with_property ps "rho" (phase <$> zip xs ys)).
  split; [by eapply run_sort_out_phases_any |].
  split; [apply lookup_insert_eq |]. do 2 (split; [done |]).
  split.
  - apply with_property_consistent; [done |].
    rewrite length_fmap, length_zip_with.
    rewrite (Hps _ _ Hx), (Hps _ _ Hy). lia.
  - intros p Hp. by apply lookup_insert_ne.
Qed.

(** The witness of X2: four particles, two on each side of the interface. *)
Lemma second_loop_overwrites_rho_witness :
  ∃ ps',
    run Exact.default_zero (sort_out_phases 0) [Probe.four]
    = inr ((), <[0 := ps']> [Probe.four])
    ∧ holds ps' "rho"
        ((λ p, if fgt p.2 (fsub (of_int 1)
                    (fmul (lit 0.15) (fsin (fmul (fmul (of_int 2) fpi) p.1))))
               then rho1 else rho2)
           <$> zip (Q2Qc <$> [0.25; 0.25; 0.75; 0.75]%Q)
                   (Q2Qc <$> [0.5; 1.5; 0.5; 1.5]%Q))
    ∧ name ps' = "fluid" ∧ num_particles ps' = 4
    ∧ consistent ps'
    ∧ ∀ p, p ≠ "rho" → properties ps' !! p = properties Probe.four !! p.
Proof.
  apply (second_loop_overwrites_rho Exact.default_zero [Probe.four] 0
           Probe.four _ _ (Q2Qc <$> [0; 0; 0; 0]%Q)).
  - reflexivity.
  - apply table_consistent. by repeat constructor.
  - by apply holds_table.
  - by apply holds_table.
  - by apply holds_table.
Defined.

(** The densities the loop leaves in the four particles. *)
Lemma Exact_probe_densities :
  (phase (F:=Qc)) <$> zip (Q2Qc <$> [0.25; 0.25; 0.75; 0.75]%Q)
                          (Q2Qc <$> [0.5; 1.5; 0.5; 1.5]%Q)
  = [rho2; rho1; rho2; rho1].
Proof. vm_compute. reflexivity. Qed.

(** X3. Running the second loop twice leaves the heap the first run
    leaves: the loop reads only [x] and [y], which it does not change. *)
Theorem second_loop_idempotent
    {F : Type} `{!FloatOps F} (base_default : string → F)
    (h : list (ParticleSet F)) (r : nat) (ps : ParticleSet F)
    (xs ys rs : list F) :
  h !! r = Some ps → consistent ps →
  holds ps "x" xs → holds ps "y" ys → holds ps "rho" rs →
  run base_default (sort_out_phases r;; sort_out_phases r) h
  = run base_default (sort_out_phases r) h.
Proof.
  intros Hr Hps Hx Hy Hrho.
  rewrite run_bind.
  rewrite (run_sort_out_phases_any base_default h r ps xs ys rs) by done.
  set (ps' := with_property ps "rho" (phase <$> zip xs ys)).
  assert (Hlen : length (phase <$> zip xs ys) = num_particles ps).
  { rewrite length_fmap, length_zip_with.
    rewrite (Hps _ _ Hx), (Hps _ _ Hy). lia. }
  rewrite (run_sort_out_phases_any base_default (<[r := ps']> h) r ps' xs ys
             (phase <$> zip xs ys)).
  - rewrite list_insert_insert_eq. do 3 f_equal.
    unfold ps', with_property. simpl. by rewrite insert_insert_eq.
  - apply list_lookup_insert_eq. by eapply lookup_lt_Some.
  - by apply with_property_consistent.
  - unfold holds, ps'. simpl. by rewrite lookup_insert_ne.
  - unfold holds, ps'. simpl. by rewrite lookup_insert_ne.
  - apply lookup_insert_eq.
Qed.

(** The witness of X3: the same four particles. *)
Lemma second_loop_idempotent_witness :
  run Exact.default_zero (sort_out_phases 0;; sort_out_phases 0) [Probe.four]
  = run Exact.default_zero (sort_out_phases 0) [Probe.four].
Proof.
  apply (second_loop_idempotent Exact.default_zero [Probe.four] 0
           Probe.four (Q2Qc <$> [0.25; 0.25; 0.75; 0.75]%Q)
           (Q2Qc <$> [0.5; 1.5; 0.5; 1.5]%Q) (Q2Qc <$> [0; 0; 0; 0]%Q)).
  - reflexivity.
  - apply table_consistent. by repeat constructor.
  - by apply holds_table.
  - by apply holds_table.
  - by apply holds_table.
Defined.

(** ** The grid *)

Section Grid.
Context {A B : Type}.

Lemma zip_replicate_r (l : list A) (b : B) :
  zip l (replicate (length l) b) = (λ a, (a, b)) <$> l.
Proof. induction l as [| a l IH]; [done |]. simpl. by rewrite IH. Qed.

Lemma meshgrid_product (a : list A) (b : list B) :
  zip (mjoin (replicate (length b) a)) (b ≫= λ v, replicate (length a) v)
  = b ≫= λ v, (λ u, (u, v)) <$> a.
Proof.
  induction b as [| v b IH]; [done |].
  rewrite !bind_cons.
  change (mjoin (replicate (length (v :: b)) a))
    with (a ++ mjoin (replicate (length b) a)).
  rewrite zip_with_app by (by rewrite length_replicate).
  by rewrite IH, zip_replicate_r.
Qed.

Lemma product_lookup (a : list A) (b : list B) j k u v :
  a !! j = Some u → b !! k = Some v →
  (b ≫= λ v, (λ u, (u, v)) <$> a) !! (k * length a + j) = Some (u, v).
Proof.
  intros Ha. revert k. induction b as [| w b IH]; intros [| k] Hb; try done.
  - injection Hb as ->. change (0 * length a + j) with j.
    rewrite bind_cons, lookup_app_l.
    + by rewrite list_lookup_fmap, Ha.
    + rewrite length_fmap. by eapply lookup_lt_Some.
  - rewrite bind_cons, lookup_app_r by (rewrite length_fmap; simpl; lia).
    rewrite length_fmap.
    replace (S k * length a + j - length a) with (k * length a + j)
      by (simpl; lia).
    by apply IH.
Qed.

End Grid.

Lemma pick_replicate_selected {A} (mask : list bool) (n : nat) (a : A) :
  length mask = n →
  pick mask (replicate n a) = replicate (length (selected 0 mask)) a.
Proof.
  intros Hlen.
  rewrite <- (length_pick_selected mask (replicate n a))
    by (by rewrite length_replicate).
  clear. revert n. induction mask as [| b mask IH]; intros [| n]; try done.
  simpl. destruct b; simpl; [f_equal |]; apply IH.
Qed.

Lemma compact_replicate_kept {A} (mask : list bool) (n : nat) (a : A) :
  length mask = n →
  compact mask (replicate n a)
  = replicate (length (filter (λ b : bool, b = false) mask)) a.
Proof.
  intros Hlen. rewrite (compact_replicate mask n a Hlen).
  by rewrite length_compact_kept by (by rewrite length_replicate).
Qed.

(** X4. The candidate points (lines 45-47) are the pairs of an entry of
    [_x] and an entry of [_y], each pair once, row by row: point
    [k*len(_x) + j] is [(_x[j], _y[k])].  [create_particles] distributes
    all [len(_x)*len(_y)] of them over the fluid and the solid. *)
Theorem grid_is_the_product_of_the_axes
    {F : Type} `{!FloatOps F} (base_default : string → F) :
  zip (mesh (F:=F)).1 (mesh (F:=F)).2
  = _y ≫= (λ yv, (λ xv, (xv, yv)) <$> _x)
  ∧ length (mesh (F:=F)).1 = length (_x (F:=F)) * length (_y (F:=F))
  ∧ length (mesh (F:=F)).2 = length (_x (F:=F)) * length (_y (F:=F))
  ∧ (∀ j k xv yv,
       _x !! j = Some xv → _y !! k = Some yv →
       (mesh (F:=F)).1 !! (k * length (_x (F:=F)) + j) = Some xv
       ∧ (mesh (F:=F)).2 !! (k * length (_x (F:=F)) + j) = Some yv)
  ∧ ∃ fluid solid,
      final_sets base_default false = Some (fluid, solid)
      ∧ num_particles fluid + num_particles solid
        = length (_x (F:=F)) * length (_y (F:=F)).
Proof.
  assert (Hprod : zip (mesh (F:=F)).1 (mesh (F:=F)).2
                  = _y ≫= (λ yv, (λ xv, (xv, yv)) <$> _x))
    by apply meshgrid_product.
  assert (Hl1 : length (mesh (F:=F)).1
                = length (_x (F:=F)) * length (_y (F:=F))).
  { unfold mesh, meshgrid_ravel. simpl.
    rewrite length_mjoin_replicate. lia. }
  split; [exact Hprod |]. split; [exact Hl1 |].
  split; [by rewrite mesh_lengths |]. split.
  - intros j k xv yv Hj Hk.
    pose proof (product_lookup _ _ _ _ _ _ Hj Hk) as Hjk.
    rewrite <- Hprod, lookup_zip_with in Hjk.
    destruct (mesh.1 !! _) as [xv' |]; [| done].
    destruct (mesh.2 !! _) as [yv' |]; [| done].
    injection Hjk as Hx Hy. by rewrite Hx, Hy.
  - exists (final_fluid base_default), (final_solid base_default).
    split; [apply final_sets_false |].
    change (n_fluid (F:=F) + n_solid (F:=F)
            = length (_x (F:=F)) * length (_y (F:=F))).
    rewrite n_fluid_points, n_solid_points, <- length_app, filter_bool_perm.
    unfold grid_points. rewrite length_zip_with, mesh_lengths. lia.
Qed.

(** X5. In both branches the sets [create_particles] returns are named
    "fluid" and "solid", and these are the only names the equations of
    lines 142-165 use as destination or source. *)
Theorem equations_name_the_created_sets
    {F : Type} `{!FloatOps F} (base_default : string → F) (empty : bool) :
  ∃ fluid solid,
    final_sets base_default empty = Some (fluid, solid)
    ∧ name fluid = "fluid" ∧ name solid = "solid"
    ∧ Forall (λ g, Forall (λ e,
          dest_of e ∈ [name fluid; name solid]
          ∧ Forall (λ s, s ∈ [name fluid; name solid])
              (default [] (sources_of e)))
        (group_equations g)) (equations (F:=F)).
Proof.
  assert (Hin : ∀ s : string, s = "fluid" ∨ s = "solid" →
                  s ∈ ["fluid"; "solid"]).
  { intros s [-> | ->]; [left | right; left]. }
  destruct empty.
  - exists (empty_fluid base_default), (empty_solid base_default).
    split; [apply final_sets_true |]. do 2 (split; [done |]).
    repeat constructor; apply Hin; auto.
  - exists (final_fluid base_default), (final_solid base_default).
    split; [apply final_sets_false |]. do 2 (split; [done |]).
    repeat constructor; apply Hin; auto.
Qed.

(** X6. After [create_particles(empty=False)] the property [V] of every
    fluid and of every solid particle is [1/(dx*dx)], the number of
    particles per unit of area (lines 117-119). *)
Theorem volume_property_is_the_inverse_cell_area
    {F : Type} `{!FloatOps F} (base_default : string → F) :
  ∃ fluid solid,
    final_sets base_default false = Some (fluid, solid)
    ∧ holds fluid "V"
        (replicate (num_particles fluid) (fdiv (lit 1.0) (fmul dx dx)))
    ∧ holds solid "V"
        (replicate (num_particles solid) (fdiv (lit 1.0) (fmul dx dx))).
Proof.
  exists (final_fluid base_default), (final_solid base_default).
  split; [apply final_sets_false |]. split; by apply holds_table.
Qed.

(** X7. [create_particles(empty=False)] never assigns the mass or the
    density of the solid, nor [z], [u], [v], [w] of either set: for every
    particle they are the values [get_particle_array] gave them.  In this
    branch the fluid is reference 1 and the solid reference 0. *)
Theorem unassigned_properties_keep_their_defaults
    {F : Type} `{!FloatOps F} (base_default : string → F) :
  ∃ fluid solid,
    final_sets base_default false = Some (fluid, solid)
    ∧ Forall (λ p, holds fluid p
                     (replicate (num_particles fluid) (base_default p)))
        ["z"; "u"; "v"; "w"]
    ∧ Forall (λ p, holds solid p
                     (replicate (num_particles solid) (base_default p)))
        ["z"; "u"; "v"; "w"; "rho"; "m"]
    ∧ (∃ h, run base_default (create_particles false) [] = inr ((1, 0), h))
    ∧ Forall (λ rp, (rp.2 ∉ ["z"; "u"; "v"; "w"])
                    ∧ (rp ∉ [(0, "rho"); (0, "m")]))
        (assignments (steps base_default false)).
Proof.
  exists (final_fluid base_default), (final_solid base_default).
  split; [apply final_sets_false |].
  split; [| split; [| split]]; [| | eexists; apply run_create_particles_false |].
  - change (num_particles (final_fluid base_default))
      with (length (selected 0 (grid_mask (F:=F)))).
    repeat first [apply Forall_nil_2 | apply Forall_cons_2];
      (erewrite <- pick_replicate_selected by apply length_grid_mask;
       by apply holds_table).
  - change (num_particles (final_solid base_default))
      with (length (filter (λ b : bool, b = false) (grid_mask (F:=F)))).
    repeat first [apply Forall_nil_2 | apply Forall_cons_2];
      (erewrite <- compact_replicate_kept by apply length_grid_mask;
       by apply holds_table).
  - rewrite assignments_false. apply Forall_app. split.
    + apply Forall_replicate. split.
      * simpl. rewrite !not_elem_of_cons. repeat split; try done.
        apply not_elem_of_nil.
      * rewrite !not_elem_of_cons. repeat split; try done.
        apply not_elem_of_nil.
    + repeat constructor; simpl; rewrite ?not_elem_of_cons;
        repeat split; try done; apply not_elem_of_nil.
Qed.

(** X8. The fluid has two phases and no third: after
    [create_particles(empty=False)] every fluid particle has density [rho1]
    or [rho2], and with it the mass [dx*dx*rho] and the reference pressure
    [c0**2/rho] of that phase. *)
Theorem fluid_has_two_phases
    {F : Type} `{!FloatOps F} (base_default : string → F) :
  ∃ fluid solid rho m ref_p,
    final_sets base_default false = Some (fluid, solid)
    ∧ holds fluid "rho" rho ∧ holds fluid "m" m ∧ holds fluid "p0" ref_p
    ∧ length rho = num_particles fluid
    ∧ ∀ i r, rho !! i = Some r →
        (r = rho1 ∧ m !! i = Some (fmul (fmul dx dx) rho1)
         ∧ ref_p !! i = Some (fdiv (fpow c0 2) rho1))
        ∨ (r = rho2 ∧ m !! i = Some (fmul (fmul dx dx) rho2)
           ∧ ref_p !! i = Some (fdiv (fpow c0 2) rho2)).
Proof.
  exists (final_fluid base_default), (final_solid base_default), fluid_rho,
    (fmul (fmul dx dx) <$> fluid_rho), (fdiv (fpow c0 2) <$> fluid_rho).
  split; [apply final_sets_false |].
  do 3 (split; [by apply holds_table |]).
  split; [apply length_fluid_rho |].
  intros i r Hi. rewrite !list_lookup_fmap, Hi. simpl.
  unfold fluid_rho in Hi. rewrite list_lookup_fmap in Hi.
  destruct (zip _ _ !! i) as [p |]; [| done]. simpl in Hi.
  injection Hi as <-. unfold phase.
  destruct (above_interface p.1 p.2); [by left | by right].
Qed.
